(** * Tree-packing optimiser: a shallow embedding of [sa_v1_parallel.cpp]
      and [single_group_optimizer.cpp], with the properties of its
      specification.

    The two programs compute on [double] / [long double].  The embedding
    is written once over an interface [Arith] of the arithmetic the code
    uses (literals, the four operations, the comparisons and the [libm]
    calls), so every definition below reads like the source and makes no
    assumption on rounding.  Properties that only depend on the control
    flow are proved for every [Arith]; properties that need the laws of
    arithmetic are proved on the instance [RArith] of exact real numbers. *)

From Stdlib Require Import ZArith List Bool String Ascii QArith Lia.
From Stdlib Require Import Reals Lra Psatz Permutation FunctionalExtensionality.
Import ListNotations.

Set Implicit Arguments.
Local Open Scope bool_scope.
Local Open Scope Z_scope.

(* ================================================================== *)
(** * Arithmetic and random numbers, as the code sees them *)
(* ================================================================== *)

(** What the code does with a floating-point number.  [lit q] is the value
    of the decimal literal [q] written in the source, [of_int] the implicit
    conversion of an [int], [to_int] the truncating [static_cast<int>]. *)
Class Arith := {
  num    : Type;
  lit    : Q -> num;
  of_int : Z -> num;
  to_int : num -> Z;
  add    : num -> num -> num;
  sub    : num -> num -> num;
  mul    : num -> num -> num;
  div    : num -> num -> num;
  opp    : num -> num;
  ltb    : num -> num -> bool;
  leb    : num -> num -> bool;
  fabs   : num -> num;
  sqrt   : num -> num;
  cos    : num -> num;
  sin    : num -> num;
  exp    : num -> num;
  pow    : num -> num -> num;
  fmod   : num -> num -> num
}.

Arguments lit {_} _%_Q.

Declare Scope num_scope.
Delimit Scope num_scope with num.
Bind Scope num_scope with num.
Notation "u + v" := (add u v) : num_scope.
Notation "u - v" := (sub u v) : num_scope.
Notation "u * v" := (mul u v) : num_scope.
Notation "u / v" := (div u v) : num_scope.
Notation "- u" := (opp u) : num_scope.
Notation "u <? v" := (ltb u v) : num_scope.
Notation "u >? v" := (ltb v u) : num_scope.
Notation "u <=? v" := (leb u v) : num_scope.
Notation "u >=? v" := (leb v u) : num_scope.

(** [std::min] and [std::max] as the standard defines them. *)
Definition fmin {A : Arith} (u v : num) : num := if (v <? u)%num then v else u.
Definition fmax {A : Arith} (u v : num) : num := if (u <? v)%num then v else u.

(** The thread-local engine [rng] (a [mt19937_64]) and the distribution
    [U(0,1)] of [sa_v1_parallel.cpp], which come from the C++ library. *)
Class Rng (A : Arith) := {
  rng_t    : Type;
  rng_seed : Z -> rng_t;
  rng_raw  : rng_t -> Z * rng_t;
  rng_unif : rng_t -> num * rng_t
}.

(** Indices and loops. *)
Definition range (lo hi : Z) : list Z :=
  map (fun k => lo + Z.of_nat k)%Z (seq 0 (Z.to_nat (hi - lo))).

Definition upd_at {V : Type} (f : Z -> V) (i : Z) (v : V) : Z -> V :=
  fun k => if (k =? i)%Z then v else f k.

Fixpoint iterate {S : Type} (k : nat) (f : S -> S) (s : S) : S :=
  match k with
  | O => s
  | S k' => iterate k' f (f s)
  end.

Definition two64 : Z := 2 ^ 64.

(** A step that can throw: [None] stands for an uncaught exception or an
    out-of-bounds write, after which the program has no result. *)
Notation "v <-? m ;; k" := (match m with Some v => k | None => None end)
  (at level 61, m at next level, right associativity).

Fixpoint mapM_opt {X Y : Type} (f : X -> option Y) (l : list X) : option (list Y) :=
  match l with
  | [] => Some []
  | v :: l' => w <-? f v ;; ws <-? mapM_opt f l' ;; Some (w :: ws)
  end.

(* ================================================================== *)
(** * The calls into [std::string] that the loaders make *)
(* ================================================================== *)

Definition npos : Z := two64 - 1.
Definition size (s : string) : Z := Z.of_nat (String.length s).

Fixpoint drop (k : nat) (s : string) : string :=
  match k, s with
  | S k', String _ s' => drop k' s'
  | _, _ => s
  end.

Fixpoint index_of (ch : ascii) (s : string) : option nat :=
  match s with
  | EmptyString => None
  | String c s' => if Ascii.eqb c ch then Some O else option_map S (index_of ch s')
  end.

(** [s.find(ch, pos)] *)
Definition str_find (s : string) (ch : ascii) (pos : Z) : Z :=
  if pos <? size s then
    match index_of ch (drop (Z.to_nat pos) s) with
    | Some k => pos + Z.of_nat k
    | None => npos
    end
  else npos.

(** [s.substr(pos, len)]; throws [out_of_range] when [pos > s.size()]. *)
Definition str_substr (s : string) (pos len : Z) : option string :=
  if size s <? pos then None
  else Some (String.substring (Z.to_nat pos) (Z.to_nat (Z.min len (size s - pos))) s).

Definition is_space (c : ascii) : bool :=
  let k := nat_of_ascii c in
  (Nat.eqb k 32 || (Nat.leb 9 k && Nat.leb k 13))%bool.

Definition digit_of (c : ascii) : option Z :=
  let k := nat_of_ascii c in
  if (Nat.leb 48 k && Nat.leb k 57)%bool then Some (Z.of_nat (k - 48)) else None.

Fixpoint skip_space (s : string) : string :=
  match s with
  | String c s' => if is_space c then skip_space s' else s
  | EmptyString => s
  end.

(** The longest run of decimal digits at the head of [s]: the number read
    so far, how many digits it has, and the rest of the string. *)
Fixpoint digits (s : string) (acc : Z) (cnt : nat) : Z * nat * string :=
  match s with
  | String c s' =>
      match digit_of c with
      | Some d => digits s' (10 * acc + d) (S cnt)
      | None => (acc, cnt, s)
      end
  | EmptyString => (acc, cnt, s)
  end.

Definition sign_of (s : string) : bool * string :=
  match s with
  | String "-" s' => (true, s')
  | String "+" s' => (false, s')
  | _ => (false, s)
  end.

(** [std::stoi(s)]: blanks, a sign, decimal digits; [invalid_argument]
    without a digit and [out_of_range] outside [int]. *)
Definition stoi (s : string) : option Z :=
  let '(neg, s1) := sign_of (skip_space s) in
  let '(v, cnt, _) := digits s1 0 0 in
  match cnt with
  | O => None
  | S _ =>
      let r := if neg then - v else v in
      if (- 2 ^ 31 <=? r) && (r <? 2 ^ 31) then Some r else None
  end.

(** The decimal number that [strtod] reads at the head of [s]: blanks, a
    sign, digits with an optional fraction, an optional exponent.  (The
    spellings [inf], [nan] and hexadecimal are not followed.) *)
Definition read_decimal (s : string) : option Q :=
  let '(neg, s1) := sign_of (skip_space s) in
  let '(ip, ci, s2) := digits s1 0 0 in
  let '(m, cf, s3) :=
    match s2 with
    | String "." s' => digits s' ip 0
    | _ => (ip, O, s2)
    end in
  match (ci + cf)%nat with
  | O => None
  | S _ =>
      let e :=
        match s3 with
        | String c s' =>
            if (Ascii.eqb c "e" || Ascii.eqb c "E")%bool then
              let '(eneg, s4) := sign_of s' in
              let '(ev, ce, _) := digits s4 0 0 in
              match ce with
              | O => 0
              | S _ => if eneg then - ev else ev
              end
            else 0
        | EmptyString => 0
        end in
      let v := (inject_Z m * Qpower 10 (e - Z.of_nat cf))%Q in
      Some (if neg then Qopp v else v)
  end.

(** [std::stod] and [std::stold]: the number nearest to what was read. *)
Definition stod {A : Arith} (s : string) : option num :=
  option_map lit (read_decimal s).

(* ================================================================== *)
(** * [sa_v1_parallel.cpp] *)
(* ================================================================== *)

Module Par.

Definition MAX_N : Z := 200.
Definition NV : Z := 15.

Definition TXq : list Q :=
  [0; 0.125; 0.0625; 0.2; 0.1; 0.35; 0.075; 0.075;
   -0.075; -0.075; -0.35; -0.1; -0.2; -0.0625; -0.125]%Q.
Definition TYq : list Q :=
  [0.8; 0.5; 0.5; 0.25; 0.25; 0; 0; -0.2; -0.2; 0; 0; 0.25; 0.25; 0.5; 0.5]%Q.

Section Code.
Context {A : Arith}.
Local Open Scope num_scope.
Local Open Scope Z_scope.

Definition PI : num := lit 3.14159265358979323846.
Definition TX (i : Z) : num := lit (nth (Z.to_nat i) TXq 0%Q).
Definition TY (i : Z) : num := lit (nth (Z.to_nat i) TYq 0%Q).

Record Pt := { ptx : num; pty : num }.

Record Poly := { p : Z -> Pt; x0 : num; y0 : num; x1 : num; y1 : num }.

(** [Poly::bbox] *)
Definition bbox (v : Z -> Pt) : Poly :=
  let start := (ptx (v 0), pty (v 0), ptx (v 0), pty (v 0)) in
  let '(bx0, by0, bx1, by1) :=
    fold_left (fun '(bx0, by0, bx1, by1) i =>
                 (fmin bx0 (ptx (v i)), fmin by0 (pty (v i)),
                  fmax bx1 (ptx (v i)), fmax by1 (pty (v i))))
              (range 1 NV) start in
  {| p := v; x0 := bx0; y0 := by0; x1 := bx1; y1 := by1 |}.

Definition getPoly (cx cy deg : num) : Poly :=
  let r := (deg * PI / lit 180.0)%num in
  let c := cos r in
  let s := sin r in
  bbox (fun i => {| ptx := (TX i * c - TY i * s + cx)%num;
                    pty := (TX i * s + TY i * c + cy)%num |}).

Definition pip (qx qy : num) (q : Poly) : bool :=
  fst (fold_left
         (fun '(inside, j) i =>
            let pi := p q i in
            let pj := p q j in
            ((if negb (Bool.eqb (pty pi >? qy)%num (pty pj >? qy)%num)
                 && (qx <? (ptx pj - ptx pi) * (qy - pty pi) / (pty pj - pty pi) + ptx pi)%num
              then negb inside else inside), i))
         (range 0 NV) (false, NV - 1)).

Definition ccw (u v w : Pt) : bool :=
  ((pty w - pty u) * (ptx v - ptx u) >? (pty v - pty u) * (ptx w - ptx u))%num.

Definition segInt (a b c d : Pt) : bool :=
  negb (Bool.eqb (ccw a c d) (ccw b c d)) && negb (Bool.eqb (ccw a b c) (ccw a b d)).

Definition bbox_disjoint (a b : Poly) : bool :=
  (x1 a <? x0 b)%num || (x1 b <? x0 a)%num || (y1 a <? y0 b)%num || (y1 b <? y0 a)%num.

Definition overlap (a b : Poly) : bool :=
  if bbox_disjoint a b then false
  else if existsb (fun i => pip (ptx (p a i)) (pty (p a i)) b
                            || pip (ptx (p b i)) (pty (p b i)) a) (range 0 NV)
  then true
  else existsb (fun i =>
         existsb (fun j => segInt (p a i) (p a ((i + 1) mod NV))
                                  (p b j) (p b ((j + 1) mod NV)))
                 (range 0 NV)) (range 0 NV).

(** [struct Cfg]: the arrays are indexed by [int]; only the entries
    [0 .. n-1] are ever read. *)
Record Cfg := {
  n  : Z;
  x  : Z -> num;
  y  : Z -> num;
  a  : Z -> num;
  pl : Z -> Poly
}.

Definition set_x (c : Cfg) (i : Z) (v : num) : Cfg :=
  {| n := n c; x := upd_at (x c) i v; y := y c; a := a c; pl := pl c |}.
Definition set_y (c : Cfg) (i : Z) (v : num) : Cfg :=
  {| n := n c; x := x c; y := upd_at (y c) i v; a := a c; pl := pl c |}.
Definition set_a (c : Cfg) (i : Z) (v : num) : Cfg :=
  {| n := n c; x := x c; y := y c; a := upd_at (a c) i v; pl := pl c |}.
Definition set_pl (c : Cfg) (i : Z) (q : Poly) : Cfg :=
  {| n := n c; x := x c; y := y c; a := a c; pl := upd_at (pl c) i q |}.
Definition set_n (c : Cfg) (m : Z) : Cfg :=
  {| n := m; x := x c; y := y c; a := a c; pl := pl c |}.

Definition upd (c : Cfg) (i : Z) : Cfg :=
  set_pl c i (getPoly (x c i) (y c i) (a c i)).

Definition updAll (c : Cfg) : Cfg := fold_left upd (range 0 (n c)) c.

Definition hasOvl (c : Cfg) (i : Z) : bool :=
  existsb (fun j => negb (i =? j) && overlap (pl c i) (pl c j)) (range 0 (n c)).

Definition hasOvlPair (c : Cfg) (i j : Z) : bool :=
  if overlap (pl c i) (pl c j) then true
  else existsb (fun k => negb (k =? i) && negb (k =? j)
                         && (overlap (pl c i) (pl c k) || overlap (pl c j) (pl c k)))
               (range 0 (n c)).

Definition anyOvl (c : Cfg) : bool :=
  existsb (fun i => existsb (fun j => overlap (pl c i) (pl c j)) (range (i + 1) (n c)))
          (range 0 (n c)).

(** The running bounding box of [side] and [getBBox]: [(x0, x1, y0, y1)]. *)
Definition hull (c : Cfg) : num * num * num * num :=
  fold_left (fun '(hx0, hx1, hy0, hy1) i =>
               (fmin hx0 (x0 (pl c i)), fmax hx1 (x1 (pl c i)),
                fmin hy0 (y0 (pl c i)), fmax hy1 (y1 (pl c i))))
            (range 1 (n c))
            (x0 (pl c 0), x1 (pl c 0), y0 (pl c 0), y1 (pl c 0)).

Definition side (c : Cfg) : num :=
  if n c =? 0 then of_int 0
  else let '(hx0, hx1, hy0, hy1) := hull c in fmax (hx1 - hx0)%num (hy1 - hy0)%num.

Definition score (c : Cfg) : num :=
  let s := side c in (s * s / of_int (n c))%num.

Definition centroid (c : Cfg) : num * num :=
  let '(sx, sy) :=
    fold_left (fun '(sx, sy) i => ((sx + x c i)%num, (sy + y c i)%num))
              (range 0 (n c)) (of_int 0, of_int 0) in
  ((sx / of_int (n c))%num, (sy / of_int (n c))%num).

(** [(gx0, gy0, gx1, gy1)] *)
Definition getBBox (c : Cfg) : num * num * num * num :=
  let '(hx0, hx1, hy0, hy1) := hull c in (hx0, hy0, hx1, hy1).

Definition findCornerTrees (c : Cfg) : list Z :=
  let '(gx0, gy0, gx1, gy1) := getBBox c in
  let eps := lit 0.01 in
  filter (fun i => (fabs (x0 (pl c i) - gx0) <? eps)%num
                   || (fabs (x1 (pl c i) - gx1) <? eps)%num
                   || (fabs (y0 (pl c i) - gy0) <? eps)%num
                   || (fabs (y1 (pl c i) - gy1) <? eps)%num)
         (range 0 (n c)).

(** ** The random draws [rf] and [ri]

    A computation that draws from the engine is a function of the engine's
    state.  [ri m] is [static_cast<int>(rng() % m)], an unsigned remainder;
    its callers pass [m >= 1]. *)
Context {G : Rng A}.

Definition M (X : Type) : Type := rng_t -> X * rng_t.
Definition ret {X : Type} (v : X) : M X := fun g => (v, g).
Definition bind {X Y : Type} (m : M X) (k : X -> M Y) : M Y :=
  fun g => let '(v, g') := m g in k v g'.

Notation "v <- m ;; k" := (bind m (fun v => k))
  (at level 61, m at next level, right associativity).

Definition rf : M num := rng_unif.
Definition ri (m : Z) : M Z := fun g => let '(r, g') := rng_raw g in (r mod m, g').

Fixpoint foldM {X S : Type} (f : S -> X -> M S) (l : list X) (s : S) : M S :=
  match l with
  | [] => ret s
  | v :: l' => s' <- f s v ;; foldM f l' s'
  end.

(** ** [sa_v3] *)

Record SAState := {
  best  : Cfg;
  cur   : Cfg;
  bs    : num;
  cs    : num;
  T     : num;
  noImp : Z
}.

(** A tentative move returns the configuration it leaves in [cur] and
    whether the step ends there ([continue]): the move was infeasible and
    has been reverted, or there was no corner polygon to move. *)

(** [moveType < 4] *)
Definition move_one (moveType n0 : Z) (ms rs sc : num) (cur : Cfg) : M (Cfg * bool) :=
  i <- ri n0 ;;
  let ox := x cur i in
  let oy := y cur i in
  let oa := a cur i in
  let '(cx, cy) := centroid cur in
  cur1 <-
    (if moveType =? 0 then
       u <- rf ;;
       let c1 := set_x cur i (x cur i + (u - lit 0.5) * of_int 2 * ms * sc)%num in
       v <- rf ;;
       ret (set_y c1 i (y c1 i + (v - lit 0.5) * of_int 2 * ms * sc)%num)
     else if moveType =? 1 then
       let dx := (cx - x cur i)%num in
       let dy := (cy - y cur i)%num in
       let d := sqrt (dx * dx + dy * dy)%num in
       if (d >? lit 1e-6)%num then
         u <- rf ;;
         let st := (u * ms * sc)%num in
         let c1 := set_x cur i (x cur i + dx / d * st)%num in
         ret (set_y c1 i (y c1 i + dy / d * st)%num)
       else ret cur
     else if moveType =? 2 then
       u <- rf ;;
       let c1 := set_a cur i (a cur i + (u - lit 0.5) * of_int 2 * rs * sc)%num in
       ret (set_a c1 i (fmod (a c1 i + of_int 360)%num (lit 360.0)))
     else
       u <- rf ;;
       let c1 := set_x cur i (x cur i + (u - lit 0.5) * ms * sc)%num in
       v <- rf ;;
       let c2 := set_y c1 i (y c1 i + (v - lit 0.5) * ms * sc)%num in
       w <- rf ;;
       let c3 := set_a c2 i (a c2 i + (w - lit 0.5) * rs * sc)%num in
       ret (set_a c3 i (fmod (a c3 i + of_int 360)%num (lit 360.0)))) ;;
  let cur2 := upd cur1 i in
  if hasOvl cur2 i then
    ret (upd (set_a (set_y (set_x cur2 i ox) i oy) i oa) i, true)
  else ret (cur2, false).

(** [while (j == i) j = ri(c.n);] ends when the engine produces another
    index; [fuel] bounds the number of redraws the model follows. *)
Fixpoint redraw (fuel : nat) (n0 i j : Z) : M (option Z) :=
  if j =? i then
    match fuel with
    | O => ret None
    | S fuel' => j' <- ri n0 ;; redraw fuel' n0 i j'
    end
  else ret (Some j).

(** [moveType == 4 && c.n > 1] *)
Definition move_swap (fuel : nat) (n0 : Z) (cur : Cfg) : M (option (Cfg * bool)) :=
  i <- ri n0 ;;
  j0 <- ri n0 ;;
  oj <- redraw fuel n0 i j0 ;;
  match oj with
  | None => ret None
  | Some j =>
      let oxi := x cur i in
      let oyi := y cur i in
      let oxj := x cur j in
      let oyj := y cur j in
      let c1 := set_y (set_x cur i oxj) i oyj in
      let c2 := set_y (set_x c1 j oxi) j oyi in
      let c3 := upd (upd c2 i) j in
      if hasOvlPair c3 i j then
        let r1 := set_y (set_x c3 i oxi) i oyi in
        let r2 := set_y (set_x r1 j oxj) j oyj in
        ret (Some (upd (upd r2 i) j, true))
      else ret (Some (c3, false))
  end.

(** [moveType == 5] *)
Definition move_center (n0 : Z) (ms sc : num) (cur : Cfg) : M (Cfg * bool) :=
  i <- ri n0 ;;
  let ox := x cur i in
  let oy := y cur i in
  let '(gx0, gy0, gx1, gy1) := getBBox cur in
  let bcx := ((gx0 + gx1) / of_int 2)%num in
  let bcy := ((gy0 + gy1) / of_int 2)%num in
  let dx := (bcx - x cur i)%num in
  let dy := (bcy - y cur i)%num in
  let d := sqrt (dx * dx + dy * dy)%num in
  cur1 <-
    (if (d >? lit 1e-6)%num then
       u <- rf ;;
       let st := (u * ms * sc * lit 0.5)%num in
       let c1 := set_x cur i (x cur i + dx / d * st)%num in
       ret (set_y c1 i (y c1 i + dy / d * st)%num)
     else ret cur) ;;
  let cur2 := upd cur1 i in
  if hasOvl cur2 i then
    ret (upd (set_y (set_x cur2 i ox) i oy) i, true)
  else ret (cur2, false).

(** [moveType == 6] *)
Definition move_corner (ms rs sc : num) (cur : Cfg) : M (Cfg * bool) :=
  let corners := findCornerTrees cur in
  match corners with
  | [] => ret (cur, true)
  | _ :: _ =>
      k <- ri (Z.of_nat (List.length corners)) ;;
      let idx := nth (Z.to_nat k) corners 0 in
      let ox := x cur idx in
      let oy := y cur idx in
      let oa := a cur idx in
      let '(gx0, gy0, gx1, gy1) := getBBox cur in
      let bcx := ((gx0 + gx1) / of_int 2)%num in
      let bcy := ((gy0 + gy1) / of_int 2)%num in
      let dx := (bcx - x cur idx)%num in
      let dy := (bcy - y cur idx)%num in
      let d := sqrt (dx * dx + dy * dy)%num in
      cur1 <-
        (if (d >? lit 1e-6)%num then
           u <- rf ;;
           let st := (u * ms * sc * lit 0.3)%num in
           let c1 := set_x cur idx (x cur idx + dx / d * st)%num in
           let c2 := set_y c1 idx (y c1 idx + dy / d * st)%num in
           w <- rf ;;
           let c3 := set_a c2 idx (a c2 idx + (w - lit 0.5) * rs * sc * lit 0.5)%num in
           ret (set_a c3 idx (fmod (a c3 idx + of_int 360)%num (lit 360.0)))
         else ret cur) ;;
      let cur2 := upd cur1 idx in
      if hasOvl cur2 idx then
        ret (upd (set_a (set_y (set_x cur2 idx ox) idx oy) idx oa) idx, true)
      else ret (cur2, false)
  end.

(** The final [else]: [moveType == 7], and [moveType == 4] when [c.n <= 1]. *)
Definition move_joint (n0 : Z) (ms sc : num) (cur : Cfg) : M (Cfg * bool) :=
  i <- ri n0 ;;
  let j := Z.rem (i + 1) n0 in
  let oxi := x cur i in
  let oyi := y cur i in
  let oxj := x cur j in
  let oyj := y cur j in
  u <- rf ;;
  let dx := ((u - lit 0.5) * ms * sc * lit 0.5)%num in
  v <- rf ;;
  let dy := ((v - lit 0.5) * ms * sc * lit 0.5)%num in
  let c1 := set_x cur i (x cur i + dx)%num in
  let c2 := set_y c1 i (y c1 i + dy)%num in
  let c3 := set_x c2 j (x c2 j + dx)%num in
  let c4 := set_y c3 j (y c3 j + dy)%num in
  let c5 := upd (upd c4 i) j in
  if hasOvlPair c5 i j then
    let r1 := set_y (set_x c5 i oxi) i oyi in
    let r2 := set_y (set_x r1 j oxj) j oyj in
    ret (upd (upd r2 i) j, true)
  else ret (c5, false).

Definition tentative (fuel : nat) (n0 : Z) (ms rs sc : num) (moveType : Z) (cur : Cfg)
  : M (option (Cfg * bool)) :=
  if moveType <? 4 then r <- move_one moveType n0 ms rs sc cur ;; ret (Some r)
  else if (moveType =? 4) && (n0 >? 1) then move_swap fuel n0 cur
  else if moveType =? 5 then r <- move_center n0 ms sc cur ;; ret (Some r)
  else if moveType =? 6 then r <- move_corner ms rs sc cur ;; ret (Some r)
  else r <- move_joint n0 ms sc cur ;; ret (Some r).

(** [T *= alpha; if (T < Tm) T = Tm;] *)
Definition cool (alpha Tm t : num) : num :=
  let t' := (t * alpha)%num in if (t' <? Tm)%num then Tm else t'.

Definition set_T (st : SAState) (t : num) : SAState :=
  {| best := best st; cur := cur st; bs := bs st; cs := cs st; T := t; noImp := noImp st |}.

(** The end of a step that reached the Metropolis test: reheat, then cool. *)
Definition reheat_cool (T0 Tm alpha : num) (st : SAState) : SAState :=
  let st1 :=
    if noImp st >? 600 then
      {| best := best st; cur := cur st; bs := bs st; cs := cs st;
         T := fmin (T st * lit 3.0)%num (T0 * lit 0.7)%num; noImp := 0 |}
    else st in
  set_T st1 (cool alpha Tm (T st1)).

(** The [continue] of an infeasible move: [noImp++] and cooling only. *)
Definition skip_step (Tm alpha : num) (st : SAState) (cur' : Cfg) : SAState :=
  {| best := best st; cur := cur'; bs := bs st; cs := cs st;
     T := cool alpha Tm (T st); noImp := noImp st + 1 |}.

Definition accept (st : SAState) (cur' : Cfg) (ns : num) : SAState :=
  if (ns <? bs st)%num then
    {| best := cur'; cur := cur'; bs := ns; cs := ns; T := T st; noImp := 0 |}
  else
    {| best := best st; cur := cur'; bs := bs st; cs := ns; T := T st;
       noImp := noImp st + 1 |}.

Definition reject (st : SAState) : SAState :=
  {| best := best st; cur := best st; bs := bs st; cs := bs st; T := T st;
     noImp := noImp st + 1 |}.

Definition metropolis (T0 Tm alpha : num) (st : SAState) (cur' : Cfg) : M SAState :=
  let ns := side cur' in
  let delta := (ns - cs st)%num in
  if (delta <? of_int 0)%num then ret (reheat_cool T0 Tm alpha (accept st cur' ns))
  else
    u <- rf ;;
    if (u <? exp (- delta / T st))%num
    then ret (reheat_cool T0 Tm alpha (accept st cur' ns))
    else ret (reheat_cool T0 Tm alpha (reject st)).

Definition sa_step (fuel : nat) (n0 : Z) (T0 Tm ms rs alpha : num) (st : SAState)
  : M (option SAState) :=
  moveType <- ri 8 ;;
  let sc := (T st / T0)%num in
  r <- tentative fuel n0 ms rs sc moveType (cur st) ;;
  match r with
  | None => ret None
  | Some (cur', true) => ret (Some (skip_step Tm alpha st cur'))
  | Some (cur', false) => st' <- metropolis T0 Tm alpha st cur' ;; ret (Some st')
  end.



(** ** [ls_v3] and [fractional_translation]

    Both try a move of polygon [i] on [best], keep it when it is feasible
    and improves [bs] by more than [tol], and otherwise put the old pose
    back.  The loop state is [(best, bs, imp)]. *)
Definition keep_or_revert (tol : num) (i : Z) (moved restored : Cfg)
           (bs : num) (imp : bool) : Cfg * num * bool :=
  if negb (hasOvl moved i) then
    let ns := side moved in
    if (ns <? bs - tol)%num then (moved, ns, true)
    else (restored, bs, imp)
  else (restored, bs, imp).

Definition try_translate (tol : num) (i : Z) (ddx ddy : num) (s : Cfg * num * bool)
  : Cfg * num * bool :=
  let '(best, bs, imp) := s in
  let ox := x best i in
  let oy := y best i in
  let b1 := set_x best i (x best i + ddx)%num in
  let b2 := set_y b1 i (y b1 i + ddy)%num in
  let moved := upd b2 i in
  keep_or_revert tol i moved (upd (set_y (set_x moved i ox) i oy) i) bs imp.

Definition try_rotate (tol : num) (i : Z) (da : num) (s : Cfg * num * bool)
  : Cfg * num * bool :=
  let '(best, bs, imp) := s in
  let oa := a best i in
  let b1 := set_a best i (fmod (a best i + da + of_int 360)%num (lit 360.0)) in
  let moved := upd b1 i in
  keep_or_revert tol i moved (upd (set_a moved i oa) i) bs imp.

Definition ls_ps : list Q := [0.02; 0.01; 0.005; 0.002; 0.001; 0.0005; 0.0002]%Q.
Definition ls_rs : list Q := [15.0; 10.0; 5.0; 2.0; 1.0; 0.5; 0.25]%Q.
Definition ls_dx : list Z := [1; -1; 0; 0; 1; 1; -1; -1].
Definition ls_dy : list Z := [0; 0; 1; -1; 1; -1; 1; -1].

(** The position loops and the angle loops of [ls_v3] for one polygon. *)
Definition ls_poly (i : Z) (s : Cfg * num * bool) : Cfg * num * bool :=
  let s1 :=
    fold_left (fun s st =>
      fold_left (fun s d =>
                   try_translate (lit 1e-10) i
                     (of_int (nth (Z.to_nat d) ls_dx 0) * lit st)%num
                     (of_int (nth (Z.to_nat d) ls_dy 0) * lit st)%num s)
                (range 0 8) s)
      ls_ps s in
  fold_left (fun s st =>
    fold_left (fun s da => try_rotate (lit 1e-10) i da s)
              [lit st; (- lit st)%num] s)
    ls_rs s1.

Definition ls_pass (n0 : Z) (best : Cfg) (bs : num) : Cfg * num * bool :=
  let corners := findCornerTrees best in
  let s1 := fold_left (fun s ci => ls_poly ci s) corners (best, bs, false) in
  fold_left (fun s i => if existsb (Z.eqb i) corners then s else ls_poly i s)
            (range 0 n0) s1.

Fixpoint ls_loop (k : nat) (n0 : Z) (best : Cfg) (bs : num) : Cfg * num :=
  match k with
  | O => (best, bs)
  | S k' =>
      let '(best', bs', imp) := ls_pass n0 best bs in
      if negb imp then (best', bs') else ls_loop k' n0 best' bs'
  end.

Definition ls_v3 (c : Cfg) (iter : Z) : Cfg :=
  fst (ls_loop (Z.to_nat iter) (n c) c (side c)).

Definition frac_steps : list Q :=
  [0.001; 0.0005; 0.0002; 0.0001; 0.00005; 0.00002; 0.00001]%Q.
Definition ft_dx : list Z := [0; 0; 1; -1; 1; 1; -1; -1].
Definition ft_dy : list Z := [1; -1; 0; 0; 1; -1; 1; -1].

Definition ft_pass (n0 : Z) (best : Cfg) (bs : num) : Cfg * num * bool :=
  fold_left (fun s i =>
    fold_left (fun s step =>
      fold_left (fun s d =>
                   try_translate (lit 1e-12) i
                     (of_int (nth (Z.to_nat d) ft_dx 0) * lit step)%num
                     (of_int (nth (Z.to_nat d) ft_dy 0) * lit step)%num s)
                (range 0 8) s)
      frac_steps s)
    (range 0 n0) (best, bs, false).

Fixpoint ft_loop (k : nat) (n0 : Z) (best : Cfg) (bs : num) : Cfg * num :=
  match k with
  | O => (best, bs)
  | S k' =>
      let '(best', bs', improved) := ft_pass n0 best bs in
      if negb improved then (best', bs') else ft_loop k' n0 best' bs'
  end.

Definition fractional_translation (c : Cfg) (max_iter : Z) : Cfg :=
  fst (ft_loop (Z.to_nat max_iter) (n c) c (side c)).

(** ** [scale_cfg], [resolve_overlaps], [compress_cfg] *)

Definition scale_cfg (c : Cfg) (factor : num) : Cfg :=
  fold_left (fun c i =>
               let c1 := set_x c i (x c i * factor)%num in
               let c2 := set_y c1 i (y c1 i * factor)%num in
               upd c2 i)
            (range 0 (n c)) c.


(** The body of the pair loop, once the pair is known to overlap. *)
Definition push_apart (step : num) (c : Cfg) (i j : Z) : M Cfg :=
  let dx := (x c i - x c j)%num in
  let dy := (y c i - y c j)%num in
  let d := sqrt (dx * dx + dy * dy)%num in
  r <- (if (d <? lit 1e-6)%num then
          u <- rf ;;
          let ang := (u * lit 2.0 * PI)%num in
          ret (cos ang, sin ang, lit 1.0)
        else ret (dx, dy, d)) ;;
  let '(dx, dy, d) := r in
  let ux := (dx / d)%num in
  let uy := (dy / d)%num in
  let c1 := set_x c i (x c i + ux * step)%num in
  let c2 := set_y c1 i (y c1 i + uy * step)%num in
  let c3 := set_x c2 j (x c2 j - ux * step)%num in
  let c4 := set_y c3 j (y c3 j - uy * step)%num in
  ret (upd (upd c4 i) j).

Definition resolve_visit (step : num) (i : Z) (s : Cfg * bool) (j : Z) : M (Cfg * bool) :=
  let '(c, any) := s in
  if negb (overlap (pl c i) (pl c j)) then ret (c, any)
  else c' <- push_apart step c i j ;; ret (c', true).

Definition resolve_pass (step : num) (c : Cfg) : M (Cfg * bool) :=
  foldM (fun s i => foldM (resolve_visit step i) (range (i + 1) (n c)) s)
        (range 0 (n c)) (c, false).

Fixpoint resolve_loop (k : nat) (step : num) (c : Cfg) : M (Cfg * bool) :=
  match k with
  | O => ret (c, negb (anyOvl c))
  | S k' =>
      r <- resolve_pass step c ;;
      let '(c', any) := r in
      if negb any then ret (c', true) else resolve_loop k' step c'
  end.

(** [resolve_overlaps] works on its argument in place; the model returns
    the configuration it leaves together with its result. *)
Definition resolve_overlaps (c : Cfg) (max_iter : Z) (step : num) (seed : Z) : Cfg * bool :=
  fst (resolve_loop (Z.to_nat max_iter) step c (rng_seed seed)).

Fixpoint compress_loop (k : nat) (s : Z) (best : Cfg) (factor : num)
         (relax_iters : Z) (relax_step : num) (seed : Z) : Cfg :=
  match k with
  | O => best
  | S k' =>
      let candidate := scale_cfg best factor in
      let '(candidate', ok) :=
        resolve_overlaps candidate relax_iters relax_step ((seed + s * 1337) mod two64) in
      if negb ok then best
      else compress_loop k' (s + 1) candidate' factor relax_iters relax_step seed
  end.

Definition compress_cfg (c : Cfg) (steps : Z) (factor : num) (relax_iters : Z)
           (relax_step : num) (seed : Z) : Cfg :=
  if (steps <=? 0) || (factor >=? lit 1.0)%num then c
  else compress_loop (Z.to_nat steps) 0 c factor relax_iters relax_step seed.

(** ** [random_init_cfg] *)

Definition zero_poly : Poly :=
  {| p := fun _ => {| ptx := of_int 0; pty := of_int 0 |};
     x0 := of_int 0; y0 := of_int 0; x1 := of_int 0; y1 := of_int 0 |}.

(** A default-constructed [Cfg]: [n = 0] and zeroed poses.  The polygons of
    a fresh [Cfg] are not initialised; they are written before being read. *)
Definition empty_cfg : Cfg :=
  {| n := 0; x := fun _ => of_int 0; y := fun _ => of_int 0; a := fun _ => of_int 0;
     pl := fun _ => zero_poly |}.





(** ** [loadCSV] *)

Record Row := { rn : Z; ridx : Z; rx : num; ry : num; rd : num }.

Definition strip_s (s : string) : string :=
  match s with
  | String "s" s' => s'
  | _ => s
  end.

(** One turn of the [while (getline(f, ln))] loop, up to the [push_back]. *)
Definition parse_line (ln : string) : option Row :=
  let p1 := str_find ln "," 0 in
  let p2 := str_find ln "," ((p1 + 1) mod two64) in
  let p3 := str_find ln "," ((p2 + 1) mod two64) in
  id <-? str_substr ln 0 p1 ;;
  xs <-? str_substr ln ((p1 + 1) mod two64) ((p2 - p1 - 1) mod two64) ;;
  ys <-? str_substr ln ((p2 + 1) mod two64) ((p3 - p2 - 1) mod two64) ;;
  ds <-? str_substr ln ((p3 + 1) mod two64) npos ;;
  ns <-? str_substr id 0 3 ;;
  nn <-? stoi ns ;;
  ix <-? str_substr id 4 npos ;;
  idx <-? stoi ix ;;
  vx <-? stod (strip_s xs) ;;
  vy <-? stod (strip_s ys) ;;
  vd <-? stod (strip_s ds) ;;
  Some {| rn := nn; ridx := idx; rx := vx; ry := vy; rd := vd |}.

(** [if (i < n) { c.x[i] = x; c.y[i] = y; c.a[i] = d; }] on arrays of
    [MAX_N] entries. *)
Definition write_row (c : Cfg) (r : Row) : option Cfg :=
  if ridx r <? n c then
    if (0 <=? ridx r) && (ridx r <? MAX_N)
    then Some (set_a (set_y (set_x c (ridx r) (rx r)) (ridx r) (ry r)) (ridx r) (rd r))
    else None
  else Some c.

Fixpoint write_rows (c : Cfg) (v : list Row) : option Cfg :=
  match v with
  | [] => Some c
  | r :: v' => c' <-? write_row c r ;; write_rows c' v'
  end.

(** The body of [for (auto& item : data)]: [updAll] writes [pl[0 .. n-1]]. *)
Definition load_group (nn : Z) (v : list Row) : option Cfg :=
  c <-? write_rows (set_n empty_cfg nn) v ;;
  if MAX_N <? nn then None else Some (updAll c).

(** [data[n]]: the rows of group [n], in file order. *)
Definition group (nn : Z) (rows : list Row) : list Row :=
  filter (fun r => rn r =? nn) rows.

Definition load_rows (rows : list Row) : option (Z -> option Cfg) :=
  if forallb (fun r => match load_group (rn r) (group (rn r) rows) with
                       | Some _ => true
                       | None => false
                       end) rows
  then Some (fun nn => match group nn rows with
                       | [] => None
                       | v => load_group nn v
                       end)
  else None.

(** [loadCSV]: the file is [None] when it cannot be opened, and else its
    lines; the first line is the header. *)
Definition loadCSV (file : option (list string)) : option (Z -> option Cfg) :=
  match file with
  | None => Some (fun _ => None)
  | Some lines => rows <-? mapM_opt parse_line (tl lines) ;; load_rows rows
  end.

End Code.
End Par.

(* ================================================================== *)
(** * [single_group_optimizer.cpp] *)
(* ================================================================== *)

Module Single.

Definition MAX_N : Z := 200.
Definition NV : Z := 15.

Definition TXq : list Q :=
  [0; 0.125; 0.0625; 0.2; 0.1; 0.35; 0.075; 0.075;
   -0.075; -0.075; -0.35; -0.1; -0.2; -0.0625; -0.125]%Q.
Definition TYq : list Q :=
  [0.8; 0.5; 0.5; 0.25; 0.25; 0; 0; -0.2; -0.2; 0; 0; 0.25; 0.25; 0.5; 0.5]%Q.

(** ** [struct FastRNG], on 64-bit unsigned integers *)

Definition u64 (z : Z) : Z := z mod two64.

Record FastRNG := { s0 : Z; s1 : Z }.

Definition seedRNG (seed : Z) : FastRNG :=
  {| s0 := Z.lxor seed 0x853c49e6748fea9b;
     s1 := Z.lxor (u64 (seed * 0x9e3779b97f4a7c15)) 0xc4ceb9fe1a85ec53 |}.

Definition rotl (v k : Z) : Z := Z.lor (u64 (Z.shiftl v k)) (Z.shiftr v (64 - k)).

Definition next (g : FastRNG) : Z * FastRNG :=
  let a0 := s0 g in
  let a1 := s1 g in
  let r := u64 (a0 + a1) in
  let b1 := Z.lxor a1 a0 in
  (r, {| s0 := Z.lxor (Z.lxor (rotl a0 24) b1) (u64 (Z.shiftl b1 16));
         s1 := rotl b1 37 |}).

(** Vectors: [v[i]] and [v[i] = w].  The code indexes within bounds. *)
Definition at_ {X : Type} (l : list X) (i : Z) (d : X) : X :=
  if i <? 0 then d else nth (Z.to_nat i) l d.

Fixpoint set_nth {X : Type} (l : list X) (k : nat) (v : X) : list X :=
  match l, k with
  | [], _ => []
  | _ :: l', O => v :: l'
  | w :: l', S k' => w :: set_nth l' k' v
  end.

Definition set_at {X : Type} (l : list X) (i : Z) (v : X) : list X :=
  if i <? 0 then l else set_nth l (Z.to_nat i) v.

Section Code.
Context {A : Arith}.
Local Open Scope num_scope.
Local Open Scope Z_scope.

Definition M (X : Type) : Type := FastRNG -> X * FastRNG.
Definition ret {X : Type} (v : X) : M X := fun g => (v, g).
Definition bind {X Y : Type} (m : M X) (k : X -> M Y) : M Y :=
  fun g => let '(v, g') := m g in k v g'.

Notation "v <- m ;; k" := (bind m (fun v => k))
  (at level 61, m at next level, right associativity).

Fixpoint foldM {X S : Type} (f : S -> X -> M S) (l : list X) (s : S) : M S :=
  match l with
  | [] => ret s
  | v :: l' => s' <- f s v ;; foldM f l' s'
  end.

(** [(next() >> 11) * 0x1.0p-53L] *)
Definition rf : M num :=
  fun g => let '(r, g') := next g in
           ((of_int (Z.shiftr r 11) * lit (1 # 9007199254740992))%num, g').
Definition rf2 : M num := u <- rf ;; ret (u * lit 2.0 - lit 1.0)%num.
Definition ri (m : Z) : M Z := fun g => let '(r, g') := next g in (r mod m, g').

Definition PI : num := lit 3.14159265358979323846.
Definition TX (i : Z) : num := lit (nth (Z.to_nat i) TXq 0%Q).
Definition TY (i : Z) : num := lit (nth (Z.to_nat i) TYq 0%Q).

Record Poly := {
  px : Z -> num; py : Z -> num;
  x0 : num; y0 : num; x1 : num; y1 : num
}.

Definition getPoly (cx cy deg : num) : Poly :=
  let rad := (deg * (PI / lit 180.0))%num in
  let s := sin rad in
  let c := cos rad in
  let vx := fun i => (TX i * c - TY i * s + cx)%num in
  let vy := fun i => (TX i * s + TY i * c + cy)%num in
  let '(minx, miny, maxx, maxy) :=
    fold_left (fun '(minx, miny, maxx, maxy) i =>
                 let minx := if (vx i <? minx)%num then vx i else minx in
                 let maxx := if (vx i >? maxx)%num then vx i else maxx in
                 let miny := if (vy i <? miny)%num then vy i else miny in
                 let maxy := if (vy i >? maxy)%num then vy i else maxy in
                 (minx, miny, maxx, maxy))
              (range 0 NV) (lit 1e9, lit 1e9, lit (-1e9), lit (-1e9)) in
  {| px := vx; py := vy; x0 := minx; y0 := miny; x1 := maxx; y1 := maxy |}.

Definition pip (qx qy : num) (q : Poly) : bool :=
  fst (fold_left
         (fun '(inside, j) i =>
            ((if negb (Bool.eqb (py q i >? qy)%num (py q j >? qy)%num)
                 && (qx <? (px q j - px q i) * (qy - py q i) / (py q j - py q i) + px q i)%num
              then negb inside else inside), i))
         (range 0 NV) (false, NV - 1)).

Definition cross (ax ay bx by_ cx cy : num) : num :=
  ((bx - ax) * (cy - ay) - (by_ - ay) * (cx - ax))%num.

Definition segInt (ax ay bx by_ cx cy dx dy : num) : bool :=
  let d1 := cross cx cy dx dy ax ay in
  let d2 := cross cx cy dx dy bx by_ in
  let d3 := cross ax ay bx by_ cx cy in
  let d4 := cross ax ay bx by_ dx dy in
  let z := of_int 0 in
  (((d1 >? z)%num && (d2 <? z)%num) || ((d1 <? z)%num && (d2 >? z)%num))
  && (((d3 >? z)%num && (d4 <? z)%num) || ((d3 <? z)%num && (d4 >? z)%num)).

Definition polyIntersect (u v : Poly) : bool :=
  if (x1 u <? x0 v)%num || (x1 v <? x0 u)%num || (y1 u <? y0 v)%num || (y1 v <? y0 u)%num
  then false
  else if existsb (fun i =>
            let ni := Z.rem (i + 1) NV in
            existsb (fun j =>
                       let nj := Z.rem (j + 1) NV in
                       segInt (px u i) (py u i) (px u ni) (py u ni)
                              (px v j) (py v j) (px v nj) (py v nj))
                    (range 0 NV)) (range 0 NV)
  then true
  else pip (px u 0) (py u 0) v || pip (px v 0) (py v 0) u.

Record Tree := { x : num; y : num; deg : num }.

Record Cfg := { n : Z; t : list Tree; p : list Poly }.

Definition zero_tree : Tree := {| x := of_int 0; y := of_int 0; deg := of_int 0 |}.
Definition zero_poly : Poly :=
  {| px := fun _ => of_int 0; py := fun _ => of_int 0;
     x0 := of_int 0; y0 := of_int 0; x1 := of_int 0; y1 := of_int 0 |}.

Definition tree (c : Cfg) (i : Z) : Tree := at_ (t c) i zero_tree.
Definition poly (c : Cfg) (i : Z) : Poly := at_ (p c) i zero_poly.

(** [Cfg(int n)] *)
Definition mkCfg (m : Z) : Cfg :=
  {| n := m; t := repeat zero_tree (Z.to_nat m); p := repeat zero_poly (Z.to_nat m) |}.

Definition upd (c : Cfg) (i : Z) : Cfg :=
  {| n := n c; t := t c;
     p := set_at (p c) i (getPoly (x (tree c i)) (y (tree c i)) (deg (tree c i))) |}.

Definition updAll (c : Cfg) : Cfg := fold_left upd (range 0 (n c)) c.

Definition anyOvl (c : Cfg) : bool :=
  existsb (fun i => existsb (fun j => polyIntersect (poly c i) (poly c j))
                            (range (i + 1) (n c)))
          (range 0 (n c)).

Definition score (c : Cfg) : num :=
  let '(minx, miny, maxx, maxy) :=
    fold_left (fun '(minx, miny, maxx, maxy) i =>
                 (fmin minx (x0 (poly c i)), fmin miny (y0 (poly c i)),
                  fmax maxx (x1 (poly c i)), fmax maxy (y1 (poly c i))))
              (range 0 (n c)) (lit 1e9, lit 1e9, lit (-1e9), lit (-1e9)) in
  let s := fmax (maxx - minx)%num (maxy - miny)%num in
  (s * s / of_int (n c))%num.

Definition copyCfg (c : Cfg) : Cfg := {| n := n c; t := t c; p := p c |}.

Definition clamp (v lo hi : num) : num := fmax lo (fmin hi v).

Definition perturb (c : Cfg) (move_scale ang_scale : num) : M Cfg :=
  i <- ri (n c) ;;
  u <- rf2 ;;
  let nx := (x (tree c i) + u * move_scale)%num in
  v <- rf2 ;;
  let ny := (y (tree c i) + v * move_scale)%num in
  w <- rf2 ;;
  let nd := fmod (deg (tree c i) + w * ang_scale + lit 360.0)%num (lit 360.0) in
  let c1 := {| n := n c;
               t := set_at (t c) i {| x := clamp nx (lit (-100.0)) (lit 100.0);
                                      y := clamp ny (lit (-100.0)) (lit 100.0);
                                      deg := nd |};
               p := p c |} in
  ret (upd c1 i).

(** One turn of the loop of [optimizeOne], on [(cur, best, bestScore)]. *)
Definition opt_step (iters : Z) (st : Cfg * Cfg * num) (i : Z) : M (Cfg * Cfg * num) :=
  let '(cur, best, bestScore) := st in
  let cand := copyCfg cur in
  let tt := (of_int i / of_int iters)%num in
  let move := (lit 0.08 * (lit 1.0 - tt * lit 0.85))%num in
  let ang := (lit 20.0 * (lit 1.0 - tt * lit 0.85))%num in
  cand' <- perturb cand move ang ;;
  if anyOvl cand' then ret st
  else
    let sc := score cand' in
    if (sc <? bestScore)%num then ret (cand', copyCfg cand', sc)
    else ret (cand', best, bestScore).

Definition optimizeOne (base : Cfg) (iters : Z) (seed : Z) : Cfg :=
  let cur := updAll (copyCfg base) in
  let best := copyCfg cur in
  let '(_, best', _) :=
    fst (foldM (opt_step iters) (range 0 iters) (cur, best, score cur) (seedRNG seed)) in
  best'.


(** ** [loadCSV] *)

Definition parseVal (s : string) : option num :=
  match s with
  | String "s" s' => stod s'
  | _ => stod s
  end.

(** [while (getline(ss, item, ',')) cols.push_back(item);] *)
Fixpoint pieces (s : string) : string * list string :=
  match s with
  | EmptyString => (EmptyString, [])
  | String c s' =>
      let '(hd, tl) := pieces s' in
      if Ascii.eqb c "," then (EmptyString, hd :: tl) else (String c hd, tl)
  end.

Definition split_commas (s : string) : list string :=
  let '(hd, tl) := pieces s in
  match last (hd :: tl) EmptyString with
  | EmptyString => removelast (hd :: tl)
  | _ => hd :: tl
  end.

Definition col (r : list string) (k : nat) : string := nth k r EmptyString.

(** [stoi(r[0].substr(0, 3))] *)
Definition row_group (r : list string) : option Z :=
  s <-? str_substr (col r 0) 0 3 ;; stoi s.

(** The first pass: [cnt[g]++]. *)
Fixpoint count_rows (rows : list (list string)) (cnt : Z -> Z) : option (Z -> Z) :=
  match rows with
  | [] => Some cnt
  | r :: rows' => g <-? row_group r ;; count_rows rows' (upd_at cnt g (cnt g + 1))
  end.

(** The second pass: [int i = idx[g]++; res[g].t[i] = ...]. *)
Fixpoint fill_rows (rows : list (list string)) (idx : Z -> Z) (res : Z -> option Cfg)
  : option (Z -> option Cfg) :=
  match rows with
  | [] => Some res
  | r :: rows' =>
      g <-? row_group r ;;
      let i := idx g in
      c <-? res g ;;
      vx <-? parseVal (col r 1) ;;
      vy <-? parseVal (col r 2) ;;
      vd <-? parseVal (col r 3) ;;
      let c' := {| n := n c; t := set_at (t c) i {| x := vx; y := vy; deg := vd |};
                   p := p c |} in
      fill_rows rows' (upd_at idx g (i + 1)) (upd_at res g (Some c'))
  end.

(** The file is its list of lines, empty when it cannot be opened. *)
Definition loadCSV (file : option (list string)) : option (Z -> option Cfg) :=
  let lines := match file with Some l => tl l | None => [] end in
  let rows := filter (fun cols => negb (Z.of_nat (List.length cols) <? 4))
                     (map split_commas lines) in
  cnt <-? count_rows rows (fun _ => 0) ;;
  let res := fun g => if cnt g =? 0 then None else Some (mkCfg (cnt g)) in
  res' <-? fill_rows rows (fun _ => 0) res ;;
  Some (fun g => option_map updAll (res' g)).

(** ** [main] *)









End Code.
End Single.

(** ** The rows that the loader of the single-group tool reads *)

Section SingleRows.
Context {A : Arith}.
Import Single.

(** The rows kept by the first loop of [loadCSV]. *)
Definition data_rows (file : option (list string)) : list (list string) :=
  filter (fun cols => negb (Z.of_nat (List.length cols) <? 4))
         (map split_commas (match file with Some l => tl l | None => [] end)).

(** The rows of group [g], in file order. *)
Definition rows_of (g : Z) (rows : list (list string)) : list (list string) :=
  filter (fun r => match row_group r with Some g' => g' =? g | None => false end) rows.

(** The tree that a row describes. *)
Definition tree_of (r : list string) : option Tree :=
  vx <-? parseVal (col r 1) ;;
  vy <-? parseVal (col r 2) ;;
  vd <-? parseVal (col r 3) ;;
  Some {| x := vx; y := vy; deg := vd |}.

(** Writing the trees [vs] at the positions [k, k+1, ...] of [l]. *)
Fixpoint write_seq (l : list Tree) (k : Z) (vs : list Tree) : list Tree :=
  match vs with
  | [] => l
  | v :: vs' => write_seq (set_at l k v) (k + 1) vs'
  end.

End SingleRows.

(* ================================================================== *)
(** * Exact arithmetic: the real numbers as an [Arith] *)
(* ================================================================== *)

Definition Rltb (u v : R) : bool := if Rlt_dec u v then true else false.
Definition Rleb (u v : R) : bool := if Rle_dec u v then true else false.

(** Truncation toward zero, and the remainder [fmod] it defines. *)
Definition Rtrunc (u : R) : Z :=
  if Rle_dec 0 u then Int_part u else - Int_part (- u).
Definition Rfmod (u v : R) : R := (u - v * IZR (Rtrunc (u / v)))%R.

#[export] Instance RArith : Arith := {|
  num := R;
  lit := Q2R;
  of_int := IZR;
  to_int := Rtrunc;
  add := Rplus;
  sub := Rminus;
  mul := Rmult;
  div := Rdiv;
  opp := Ropp;
  ltb := Rltb;
  leb := Rleb;
  fabs := Rabs;
  sqrt := R_sqrt.sqrt;
  cos := Rtrigo_def.cos;
  sin := Rtrigo_def.sin;
  exp := Rtrigo_def.exp;
  pow := Rpower;
  fmod := Rfmod
|}.

(* ================================================================== *)
(** * The vocabulary of the properties *)
(* ================================================================== *)

Section Vocabulary.
Context {A : Arith}.
Import Par.

(** The cached polygons are those of the poses (the data-model invariant
    that [upd] maintains). *)
Definition consistent (c : Cfg) : Prop :=
  forall i, 0 <= i < n c -> pl c i = getPoly (x c i) (y c i) (a c i).

(** A configuration as the program builds them. *)
Definition well_formed (c : Cfg) : Prop :=
  1 <= n c <= MAX_N /\ consistent c.

(** No two distinct polygons overlap, in either order. *)
Definition feasible (c : Cfg) : Prop :=
  forall i j, 0 <= i < n c -> 0 <= j < n c -> i <> j ->
              overlap (pl c i) (pl c j) = false.

(** The entries a move rewrites: one index, or two. *)
Definition one (i : Z) : Z -> bool := fun k => k =? i.
Definition two (i j : Z) : Z -> bool := fun k => (k =? i) || (k =? j).

(** [c'] is [c] with the entries selected by [sel] rewritten. *)
Definition edit_on (sel : Z -> bool) (c c' : Cfg) : Prop :=
  n c' = n c /\
  forall k, sel k = false ->
            x c' k = x c k /\ y c' k = y c k /\ a c' k = a c k /\ pl c' k = pl c k.

(** [c'] is [c] with new poses at the entries selected by [sel], the
    cached polygons not yet rebuilt. *)
Definition pose_edit (sel : Z -> bool) (c c' : Cfg) : Prop :=
  n c' = n c /\ pl c' = pl c /\
  forall k, sel k = false -> x c' k = x c k /\ y c' k = y c k /\ a c' k = a c k.

(** Consistent, feasible, and of the given size. *)
Definition sound (m : Z) (c : Cfg) : Prop :=
  n c = m /\ consistent c /\ feasible c.


(** The invariant of the loops of [ls_v3] and [fractional_translation] on
    [(best, bs, imp)]: [bs] is the side of [best]; with [feas], [best] is
    feasible too. *)
Definition ls_ok (m : Z) (feas : bool) (s : Cfg * num * bool) : Prop :=
  n (fst (fst s)) = m /\ consistent (fst (fst s))
  /\ snd (fst s) = side (fst (fst s))
  /\ (feas = true -> feasible (fst (fst s))).

(** The identifier [NNN_i] of a row of the CSV file. *)
Definition row_key (r : Row) : Z * Z := (rn r, ridx r).


(** The two configurations have the same polygons. *)
Definition same_polys (c c' : Cfg) : Prop :=
  n c' = n c /\ forall k, 0 <= k < n c -> pl c' k = pl c k.

(** What holds of the value of a computation, whatever the engine's state. *)
Definition always {G : Rng A} {X : Type} (m : M X) (P : X -> Prop) : Prop :=
  forall g, P (fst (m g)).

End Vocabulary.

(** What a pass of a local search has done to [bs0], in exact arithmetic:
    nothing, or lowered it by more than [tol]. *)
Definition descent (tol bs0 : R) (s : Par.Cfg * R * bool) : Prop :=
  (snd s = false /\ snd (fst s) = bs0)
  \/ (snd s = true /\ (snd (fst s) < bs0 - tol)%R).

(** ** Sample inputs *)

(** A linear congruential engine, to run the randomized routines on. *)
Definition lcg_next (g : Z) : Z :=
  (6364136223846793005 * g + 1442695040888963407) mod two64.

Definition lcg_unif (g : Z) : R := (IZR (Z.shiftr g 11) / IZR (2 ^ 53))%R.

Definition lcg : Rng RArith := {|
  rng_t := Z;
  rng_seed := fun s => s mod two64;
  rng_raw := fun g => (g, lcg_next g);
  rng_unif := fun g => (lcg_unif g, lcg_next g)
|}.

(** The state of [lcg] after [k] draws from the seed 0. *)
Definition lcg_at (k : nat) : Z := iterate k lcg_next 0.

(** Trees at the given centres, all upright. *)
Definition trees_at (m : Z) (cx cy : Z -> R) : Par.Cfg :=
  {| Par.n := m; Par.x := cx; Par.y := cy; Par.a := fun _ => 0%R;
     Par.pl := fun i => Par.getPoly (cx i) (cy i) 0%R |}.

(** One tree at the origin (the group [001] of scenario S1). *)
Definition one_tree : Par.Cfg := trees_at 1 (fun _ => 0%R) (fun _ => 0%R).

(** [one_tree] after the move of type 0 that [lcg] draws from the seed 0,
    at [ms = 0.25] and [sc = 1]. *)
Definition one_tree_moved : Par.Cfg :=
  let dx := ((lcg_unif (lcg_at 2) - Q2R 0.5) * IZR 2 * Q2R 0.25 * (1 / 1))%R in
  let dy := ((lcg_unif (lcg_at 3) - Q2R 0.5) * IZR 2 * Q2R 0.25 * (1 / 1))%R in
  Par.upd (Par.set_y (Par.set_x one_tree 0 (0 + dx)%R) 0 (0 + dy)%R) 0.

(** An annealing state at [T = 1] whose current side is far below the side
    of [one_tree_moved]. *)
Definition cold_state : Par.SAState :=
  {| Par.best := one_tree; Par.cur := one_tree;
     Par.bs := Par.side one_tree;
     Par.cs := (Par.side one_tree_moved - IZR (2 ^ 53))%R;
     Par.T := 1%R; Par.noImp := 0 |}.


(** Two trees on top of each other. *)
Definition two_stacked : Par.Cfg := trees_at 2 (fun _ => 0%R) (fun _ => 0%R).



(** The position of a tree of the single-group tool lies in the box
    [[-100, 100]] on both axes. *)
Definition in_box (tr : Single.Tree) : Prop :=
  (-100 <= Single.x tr <= 100)%R /\ (-100 <= Single.y tr <= 100)%R.

(** Every tree is the one of the input or lies in the box. *)
Definition kept_or_boxed (base res : list Single.Tree) : Prop :=
  Forall2 (fun tb tr => tr = tb \/ in_box tr) base res.

(** A group of the single-group tool holding one tree at the origin. *)
Definition single_tree : Single.Cfg :=
  Single.updAll (Single.mkCfg 1).



(** Two rows of group [002] with distinct identifiers, in both orders. *)
Definition rows_01 : list string :=
  ["id,x,y,deg"; "002_0,s1.0,s0.0,s0.0"; "002_1,s2.0,s0.0,s0.0"]%string.
Definition rows_10 : list string :=
  ["id,x,y,deg"; "002_1,s2.0,s0.0,s0.0"; "002_0,s1.0,s0.0,s0.0"]%string.

(** Two rows with the same identifier [001_0], in both orders. *)
Definition rows_dup : list string :=
  ["id,x,y,deg"; "001_0,s1.0,s0.0,s0.0"; "001_0,s2.0,s0.0,s0.0"]%string.
Definition rows_dup' : list string :=
  ["id,x,y,deg"; "001_0,s2.0,s0.0,s0.0"; "001_0,s1.0,s0.0,s0.0"]%string.

(* ================================================================== *)
(** * Properties *)
(* ================================================================== *)

Unset Implicit Arguments.


(** The literals of the source as real numbers. *)
Ltac literals :=
  change (@lit RArith) with Q2R in *; unfold Q2R in *;
  repeat match goal with
  | |- context [Qnum ?q] =>
      let v := eval vm_compute in (Qnum q) in change (Qnum q) with v
  | |- context [QDen ?q] =>
      let v := eval vm_compute in (QDen q) in change (QDen q) with v
  | H : context [Qnum ?q] |- _ =>
      let v := eval vm_compute in (Qnum q) in change (Qnum q) with v in H
  | H : context [QDen ?q] |- _ =>
      let v := eval vm_compute in (QDen q) in change (QDen q) with v in H
  end.

(** ** Loops and indices *)

Lemma in_range (lo hi k : Z) : In k (range lo hi) <-> lo <= k < hi.
Proof.
  unfold range. rewrite in_map_iff. split.
  - intros [m [<- Hm]]. apply in_seq in Hm. lia.
  - intros H. exists (Z.to_nat (k - lo)). split; [lia|].
    apply in_seq. lia.
Qed.



Lemma existsb_false_iff {X : Type} (f : X -> bool) (l : list X) :
  existsb f l = false <-> forall v, In v l -> f v = false.
Proof.
  split.
  - intros H v Hv. destruct (f v) eqn:E; [|reflexivity].
    rewrite <- H. symmetry. apply existsb_exists. eauto.
  - intros H. destruct (existsb f l) eqn:E; [|reflexivity].
    apply existsb_exists in E. destruct E as [v [Hv E]]. rewrite H in E; auto.
Qed.

Lemma existsb_ext_in {X : Type} (f g : X -> bool) (l : list X) :
  (forall v, In v l -> f v = g v) -> existsb f l = existsb g l.
Proof.
  induction l as [|w l IH]; intros H; simpl; [reflexivity|].
  rewrite H by (left; reflexivity). rewrite IH; [reflexivity|].
  intros v Hv. apply H. right. exact Hv.
Qed.

Lemma existsb_swap {X Y : Type} (f : X -> Y -> bool) (l1 : list X) (l2 : list Y) :
  existsb (fun i => existsb (fun j => f i j) l2) l1
  = existsb (fun j => existsb (fun i => f i j) l1) l2.
Proof.
  apply eq_true_iff_eq. rewrite !existsb_exists. split.
  - intros [i [Hi H]]. apply existsb_exists in H. destruct H as [j [Hj H]].
    exists j. split; [assumption|]. apply existsb_exists. eauto.
  - intros [j [Hj H]]. apply existsb_exists in H. destruct H as [i [Hi H]].
    exists i. split; [assumption|]. apply existsb_exists. eauto.
Qed.

(** ** Comparisons of real numbers *)

Lemma Rltb_true (u v : R) : Rltb u v = true <-> (u < v)%R.
Proof. unfold Rltb. destruct (Rlt_dec u v); split; intros; auto; discriminate. Qed.

Lemma Rltb_false (u v : R) : Rltb u v = false <-> (v <= u)%R.
Proof.
  unfold Rltb. destruct (Rlt_dec u v); split; intros; auto; try discriminate; lra.
Qed.

Lemma Rleb_true (u v : R) : Rleb u v = true <-> (u <= v)%R.
Proof. unfold Rleb. destruct (Rle_dec u v); split; intros; auto; discriminate. Qed.

Lemma Rleb_false (u v : R) : Rleb u v = false <-> (v < u)%R.
Proof.
  unfold Rleb. destruct (Rle_dec u v); split; intros; auto; try discriminate; lra.
Qed.

Lemma Rltb_iff_eq (u v u' v' : R) :
  ((u < v)%R <-> (u' < v')%R) -> Rltb u v = Rltb u' v'.
Proof.
  intros H. apply eq_true_iff_eq. rewrite !Rltb_true. exact H.
Qed.

Lemma fmin_R (u v : R) : fmin (A := RArith) u v = Rmin u v.
Proof.
  unfold fmin, Rmin. simpl. unfold Rltb.
  destruct (Rlt_dec v u), (Rle_dec u v); try reflexivity; lra.
Qed.

Lemma fmax_R (u v : R) : fmax (A := RArith) u v = Rmax u v.
Proof.
  unfold fmax, Rmax. simpl. unfold Rltb.
  destruct (Rlt_dec u v), (Rle_dec u v); try reflexivity; lra.
Qed.



(** ** The overlap predicate in exact arithmetic *)

Section OverlapR.
Import Par.
Local Open Scope R_scope.

Lemma ccw_cyclic (u v w : Pt) : ccw u v w = ccw v w u.
Proof.
  unfold ccw. simpl. apply Rltb_iff_eq. split; intros H; nra.
Qed.

Lemma segInt_sym (a b c d : Pt) : segInt a b c d = segInt c d a b.
Proof.
  unfold segInt.
  rewrite (ccw_cyclic a c d), (ccw_cyclic b c d).
  rewrite (ccw_cyclic c a b), (ccw_cyclic d a b).
  apply andb_comm.
Qed.

Lemma bbox_disjoint_sym (a b : Poly) : bbox_disjoint a b = bbox_disjoint b a.
Proof.
  unfold bbox_disjoint.
  destruct (x1 a <? x0 b)%num, (x1 b <? x0 a)%num,
           (y1 a <? y0 b)%num, (y1 b <? y0 a)%num; reflexivity.
Qed.

Lemma overlap_sym (a b : Poly) : overlap a b = overlap b a.
Proof.
  unfold overlap. rewrite (bbox_disjoint_sym a b).
  destruct (bbox_disjoint b a); [reflexivity|].
  rewrite (existsb_ext_in
             (fun i => pip (ptx (p a i)) (pty (p a i)) b || pip (ptx (p b i)) (pty (p b i)) a)
             (fun i => pip (ptx (p b i)) (pty (p b i)) a || pip (ptx (p a i)) (pty (p a i)) b)
             (range 0 NV) (fun i _ => orb_comm _ _)).
  match goal with |- (if ?e then _ else _) = _ => destruct e end; [reflexivity|].
  rewrite existsb_swap. apply existsb_ext_in. intros j _. apply existsb_ext_in. intros i _.
  apply segInt_sym.
Qed.












End OverlapR.

(** ** Reasoning on computations that draw random numbers *)

Section Always.
Context {A : Arith} {G : Rng A}.
Import Par.

Lemma always_ret {X : Type} (v : X) (P : X -> Prop) : P v -> always (ret v) P.
Proof. intros H g. exact H. Qed.

Lemma always_bind {X Y : Type} (m : M X) (k : X -> M Y) (P : X -> Prop) (Q : Y -> Prop) :
  always m P -> (forall v, P v -> always (k v) Q) -> always (bind m k) Q.
Proof.
  intros Hm Hk g. unfold bind. specialize (Hm g).
  destruct (m g) as [v g']. simpl in Hm. exact (Hk v Hm g').
Qed.



Lemma always_foldM {X S : Type} (f : S -> X -> M S) (I : S -> Prop) (l : list X) :
  (forall s v, In v l -> I s -> always (f s v) I) ->
  forall s, I s -> always (foldM f l s) I.
Proof.
  induction l as [|v l IH]; intros Hf s Hs; simpl.
  - apply always_ret. exact Hs.
  - eapply always_bind.
    + apply Hf; [left; reflexivity|exact Hs].
    + intros s' Hs'. apply IH; [|exact Hs'].
      intros s0 w Hw. apply Hf. right. exact Hw.
Qed.

End Always.

(** ** Edits of a configuration that keep it feasible *)

Section Edits.
Context {A : Arith}.
Import Par.
Hypothesis overlap_symmetric : forall u v : Poly, overlap u v = overlap v u.

Lemma anyOvl_false (c : Cfg) :
  anyOvl c = false <->
  forall i j, 0 <= i -> i < j -> j < n c -> overlap (pl c i) (pl c j) = false.
Proof.
  unfold anyOvl. rewrite existsb_false_iff. split.
  - intros H i j H0 Hij Hj.
    assert (Hi : In i (range 0 (n c))) by (apply in_range; lia).
    specialize (H i Hi). rewrite existsb_false_iff in H.
    apply H. apply in_range. lia.
  - intros H i Hi. apply in_range in Hi. apply existsb_false_iff.
    intros j Hj. apply in_range in Hj. apply H; lia.
Qed.

Lemma feasible_anyOvl (c : Cfg) : feasible c <-> anyOvl c = false.
Proof.
  rewrite anyOvl_false. unfold feasible. split.
  - intros H i j H0 Hij Hj. apply H; lia.
  - intros H i j Hi Hj Hne.
    destruct (Z_lt_ge_dec i j).
    + apply H; lia.
    + rewrite overlap_symmetric. apply H; lia.
Qed.

Lemma hasOvl_false (c : Cfg) (i : Z) :
  hasOvl c i = false <->
  forall j, 0 <= j < n c -> j <> i -> overlap (pl c i) (pl c j) = false.
Proof.
  unfold hasOvl. rewrite existsb_false_iff. split.
  - intros H j Hj Hne. assert (Hin : In j (range 0 (n c))) by (apply in_range; lia).
    specialize (H j Hin). apply andb_false_iff in H. destruct H as [H|H]; [|exact H].
    apply negb_false_iff, Z.eqb_eq in H. congruence.
  - intros H j Hj. apply in_range in Hj.
    destruct (Z.eqb_spec i j) as [->|Hne]; [reflexivity|].
    simpl. apply H; [lia|congruence].
Qed.


(** A rewritten part whose polygons are rebuilt leaves the configuration
    consistent; if it overlaps nothing, feasible. *)
Lemma edit_consistent (sel : Z -> bool) (c c' : Cfg) :
  consistent c -> edit_on sel c c' ->
  (forall k, sel k = true -> pl c' k = getPoly (x c' k) (y c' k) (a c' k)) ->
  consistent c'.
Proof.
  intros Hc [Hn He] Hcons k Hk. rewrite Hn in Hk.
  destruct (sel k) eqn:Es; [apply Hcons; exact Es|].
  destruct (He k Es) as (-> & -> & -> & ->). apply Hc. exact Hk.
Qed.

Lemma edit_feasible (sel : Z -> bool) (c c' : Cfg) :
  feasible c -> edit_on sel c c' ->
  (forall k l, sel k = true -> 0 <= k < n c -> 0 <= l < n c -> l <> k ->
               overlap (pl c' k) (pl c' l) = false) ->
  feasible c'.
Proof.
  intros Hf [Hn He] Hov k l Hk Hl Hne. rewrite Hn in Hk, Hl.
  destruct (sel k) eqn:Ek.
  - apply Hov; auto.
  - destruct (sel l) eqn:El.
    + rewrite overlap_symmetric. apply Hov; auto.
    + destruct (He k Ek) as (_ & _ & _ & ->). destruct (He l El) as (_ & _ & _ & ->).
      apply Hf; assumption.
Qed.

Lemma edit_accept (sel : Z -> bool) (c c' : Cfg) :
  consistent c -> feasible c -> edit_on sel c c' ->
  (forall k, sel k = true -> pl c' k = getPoly (x c' k) (y c' k) (a c' k)) ->
  (forall k l, sel k = true -> 0 <= k < n c -> 0 <= l < n c -> l <> k ->
               overlap (pl c' k) (pl c' l) = false) ->
  consistent c' /\ feasible c'.
Proof.
  intros Hc Hf He Hcons Hov. split.
  - exact (edit_consistent sel c c' Hc He Hcons).
  - exact (edit_feasible sel c c' Hf He Hov).
Qed.

(** Putting the old poses back and rebuilding the polygons restores the
    configuration. *)
Lemma edit_restore (sel : Z -> bool) (c c' : Cfg) :
  consistent c -> edit_on sel c c' ->
  (forall k, sel k = true ->
             x c' k = x c k /\ y c' k = y c k /\ a c' k = a c k
             /\ pl c' k = getPoly (x c k) (y c k) (a c k)) ->
  consistent c' /\ same_polys c c'.
Proof.
  intros Hc [Hn He] Hr.
  assert (Hpl : forall k, 0 <= k < n c -> pl c' k = pl c k).
  { intros k Hk. destruct (sel k) eqn:Es.
    - destruct (Hr k Es) as (_ & _ & _ & ->). symmetry. apply Hc. exact Hk.
    - apply He. exact Es. }
  split.
  - intros k Hk. rewrite Hn in Hk. rewrite (Hpl k Hk).
    destruct (sel k) eqn:Es.
    + destruct (Hr k Es) as (-> & -> & -> & _). apply Hc. exact Hk.
    + destruct (He k Es) as (-> & -> & -> & _). apply Hc. exact Hk.
  - split; assumption.
Qed.

Lemma same_polys_feasible (c c' : Cfg) : feasible c -> same_polys c c' -> feasible c'.
Proof.
  intros Hf [Hn Hpl] k l Hk Hl Hne. rewrite Hn in Hk, Hl.
  rewrite (Hpl k Hk), (Hpl l Hl). apply Hf; assumption.
Qed.


End Edits.

(** ** The tentative moves keep the configuration sound *)

(** Projections of a rewritten configuration. *)
Ltac fields :=
  cbn [Par.n Par.x Par.y Par.a Par.pl Par.upd Par.set_x Par.set_y Par.set_a Par.set_pl Par.set_n]; unfold upd_at.

Ltac pose_edit_tac :=
  split; [fields; first [reflexivity|apply proj1 with (B := True); tauto
                        |match goal with H : pose_edit _ _ _ |- _ => apply H end]
         |split; [fields; first [reflexivity
                                |match goal with H : pose_edit _ _ _ |- _ => apply H end]
                 |intros ? ?; fields; unfold one, two in *;
                  repeat match goal with
                         | H : _ || _ = false |- _ =>
                             apply orb_false_iff in H; destruct H
                         | H : (_ =? _) = false |- _ => rewrite !H
                         end; auto]].


Section Moves.
Context {A : Arith} {G : Rng A}.
Import Par.
Hypothesis overlap_symmetric : forall u v : Poly, overlap u v = overlap v u.


(** Rebuilding the polygon of the rewritten pose: the move is accepted. *)
Lemma accept_one (m : Z) (c c1 : Cfg) (i : Z) :
  sound m c -> pose_edit (one i) c c1 -> hasOvl (upd c1 i) i = false ->
  sound m (upd c1 i).
Proof.
  intros (Hn & Hc & Hf) (En & Ep & Ek) Hov.
  split; [fields; congruence|].
  apply (edit_accept overlap_symmetric (one i) c); auto.
  - split; [fields; assumption|]. intros k Hk. unfold one in Hk.
    fields. rewrite Hk, Ep. destruct (Ek k Hk) as (? & ? & ?). auto.
  - intros k Hk. unfold one in Hk. apply Z.eqb_eq in Hk. subst k.
    fields. rewrite Z.eqb_refl. reflexivity.
  - intros k l Hk _ Hl Hne. unfold one in Hk. apply Z.eqb_eq in Hk. subst k.
    rewrite hasOvl_false in Hov. apply Hov; [|assumption].
    fields. lia.
Qed.



Lemma edit_on_of_pose (sel : Z -> bool) (c c1 c' : Cfg) :
  pose_edit sel c c1 ->
  n c' = n c1 ->
  (forall k, sel k = false ->
             x c' k = x c1 k /\ y c' k = y c1 k /\ a c' k = a c1 k /\ pl c' k = pl c1 k) ->
  edit_on sel c c'.
Proof.
  intros (En & Ep & Ek) Hn H. split; [congruence|].
  intros k Hk. destruct (H k Hk) as (-> & -> & -> & ->).
  destruct (Ek k Hk) as (-> & -> & ->). rewrite Ep. auto.
Qed.









End Moves.

(** ** [sa_v3] keeps [best] and [cur] sound *)

Section Annealing.
Context {A : Arith} {G : Rng A}.
Import Par.
Hypothesis overlap_symmetric : forall u v : Poly, overlap u v = overlap v u.









End Annealing.

(** ** A single polygon never redraws

    With [n <= 1] the swap branch is not taken, so no step of [sa_v3] waits
    for the engine and the run returns whatever [fuel] is. *)

Section Totality.
Import Par.
Context {A : Arith} {G : Rng A}.





End Totality.

(** ** [ls_v3] and [fractional_translation] keep [bs = side(best)] *)

Lemma fold_left_ext_in {X S : Type} (f g : S -> X -> S) (l : list X) :
  (forall s v, In v l -> f s v = g s v) ->
  forall s, fold_left f l s = fold_left g l s.
Proof.
  induction l as [|v l IH]; intros H s; simpl; [reflexivity|].
  rewrite H by (left; reflexivity). apply IH.
  intros s' w Hw. apply H. right. exact Hw.
Qed.

Lemma fold_left_inv {X S : Type} (f : S -> X -> S) (P : S -> Prop) (l : list X) :
  (forall s v, In v l -> P s -> P (f s v)) ->
  forall s, P s -> P (fold_left f l s).
Proof.
  induction l as [|v l IH]; intros H s Hs; simpl; [exact Hs|].
  apply IH.
  - intros s' w Hw. apply H. right. exact Hw.
  - apply H; [left; reflexivity|exact Hs].
Qed.

Section LocalSearch.
Context {A : Arith}.
Import Par.
Hypothesis overlap_symmetric : forall u v : Poly, overlap u v = overlap v u.

Lemma side_same_polys (c c' : Cfg) : 0 <= n c -> same_polys c c' -> side c' = side c.
Proof.
  intros H0 [Hn Hpl]. unfold side, hull. rewrite Hn.
  destruct (Z.eqb_spec (n c) 0) as [E|E]; [reflexivity|].
  rewrite (Hpl 0) by lia.
  rewrite (fold_left_ext_in
             (fun '(hx0, hx1, hy0, hy1) i =>
                (fmin hx0 (x0 (pl c' i)), fmax hx1 (x1 (pl c' i)),
                 fmin hy0 (y0 (pl c' i)), fmax hy1 (y1 (pl c' i))))
             (fun '(hx0, hx1, hy0, hy1) i =>
                (fmin hx0 (x0 (pl c i)), fmax hx1 (x1 (pl c i)),
                 fmin hy0 (y0 (pl c i)), fmax hy1 (y1 (pl c i))))); [reflexivity|].
  intros [[[h0 h1] h2] h3] i Hi. apply in_range in Hi. rewrite (Hpl i) by lia.
  reflexivity.
Qed.

(** One tentative move of the local searches, kept or put back. *)
Lemma keep_or_revert_ok (m : Z) (feas : bool) (tol : num) (i : Z)
      (best c1 restored : Cfg) (bs : num) (imp : bool) :
  0 <= m ->
  ls_ok m feas (best, bs, imp) ->
  pose_edit (one i) best c1 ->
  edit_on (one i) best restored ->
  (x restored i = x best i /\ y restored i = y best i /\ a restored i = a best i
   /\ pl restored i = getPoly (x best i) (y best i) (a best i)) ->
  ls_ok m feas (keep_or_revert tol i (upd c1 i) restored bs imp).
Proof.
  intros H0 (Hn & Hc & Hbs & Hf) Hpe Hed Hres. cbn [fst snd] in *.
  assert (Hrev : ls_ok m feas (restored, bs, imp)).
  { assert (Hr : forall k, one i k = true ->
                  x restored k = x best k /\ y restored k = y best k
                  /\ a restored k = a best k
                  /\ pl restored k = getPoly (x best k) (y best k) (a best k)).
    { intros k Hk. unfold one in Hk. apply Z.eqb_eq in Hk. rewrite Hk. exact Hres. }
    destruct (edit_restore (one i) best restored Hc Hed Hr) as [Hc' Hsp].
    repeat split; cbn [fst snd].
    - destruct Hed as [E _]. congruence.
    - exact Hc'.
    - rewrite (side_same_polys best restored); [exact Hbs|lia|exact Hsp].
    - intros Ef. exact (same_polys_feasible best restored (Hf Ef) Hsp). }
  unfold keep_or_revert. destruct (hasOvl (upd c1 i) i) eqn:E; cbn [negb]; [exact Hrev|].
  destruct (side (upd c1 i) <? bs - tol)%num; [|exact Hrev].
  repeat split; cbn [fst snd].
  - destruct Hpe as [E1 _]. fields. congruence.
  - apply (edit_consistent (one i) best); [exact Hc| |].
    + apply (edit_on_of_pose (one i) best c1); [exact Hpe|reflexivity|].
      intros k Hk. unfold one in Hk. fields. rewrite Hk. auto.
    + intros k Hk. unfold one in Hk. apply Z.eqb_eq in Hk. rewrite Hk.
      fields. rewrite Z.eqb_refl. reflexivity.
  - intros Ef.
    destruct (accept_one overlap_symmetric m best c1 i) as (_ & _ & Hfe); auto.
    repeat split; auto.
Qed.

Lemma try_translate_ok (m : Z) (feas : bool) (tol : num) (i : Z) (ddx ddy : num)
      (s : Cfg * num * bool) :
  0 <= m -> ls_ok m feas s -> ls_ok m feas (try_translate tol i ddx ddy s).
Proof.
  intros H0 Hs. destruct s as [[best bs] imp]. unfold try_translate. cbv zeta.
  apply (keep_or_revert_ok m feas tol i best); auto.
  - pose_edit_tac.
  - split; [reflexivity|]. intros k Hk. unfold one in Hk. fields. rewrite !Hk. auto.
  - fields. rewrite !Z.eqb_refl. auto.
Qed.

Lemma try_rotate_ok (m : Z) (feas : bool) (tol : num) (i : Z) (da : num)
      (s : Cfg * num * bool) :
  0 <= m -> ls_ok m feas s -> ls_ok m feas (try_rotate tol i da s).
Proof.
  intros H0 Hs. destruct s as [[best bs] imp]. unfold try_rotate. cbv zeta.
  apply (keep_or_revert_ok m feas tol i best); auto.
  - pose_edit_tac.
  - split; [reflexivity|]. intros k Hk. unfold one in Hk. fields. rewrite !Hk. auto.
  - fields. rewrite !Z.eqb_refl. auto.
Qed.

Lemma ls_poly_ok (m : Z) (feas : bool) (i : Z) (s : Cfg * num * bool) :
  0 <= m -> ls_ok m feas s -> ls_ok m feas (ls_poly i s).
Proof.
  intros H0 Hs. unfold ls_poly.
  apply fold_left_inv.
  { intros s1 st _ H1. apply fold_left_inv; [|exact H1].
    intros s2 da _ H2. apply try_rotate_ok; assumption. }
  apply fold_left_inv; [|exact Hs].
  intros s1 st _ H1. apply fold_left_inv; [|exact H1].
  intros s2 d _ H2. apply try_translate_ok; assumption.
Qed.

Lemma ls_pass_ok (m : Z) (feas : bool) (n0 : Z) (best : Cfg) (bs : num) :
  0 <= m -> ls_ok m feas (best, bs, false) -> ls_ok m feas (ls_pass n0 best bs).
Proof.
  intros H0 Hs. unfold ls_pass.
  apply fold_left_inv.
  { intros s i _ H1. destruct (existsb (Z.eqb i) (findCornerTrees best)); [exact H1|].
    apply ls_poly_ok; assumption. }
  apply fold_left_inv; [|exact Hs].
  intros s ci _ H1. apply ls_poly_ok; assumption.
Qed.

Lemma ls_ok_flag (m : Z) (feas : bool) (b : Cfg) (bs : num) (imp imp' : bool) :
  ls_ok m feas (b, bs, imp) -> ls_ok m feas (b, bs, imp').
Proof. intros H. exact H. Qed.

Lemma ls_loop_ok (m : Z) (feas : bool) (k : nat) (n0 : Z) (best : Cfg) (bs : num) :
  0 <= m -> ls_ok m feas (best, bs, false) ->
  ls_ok m feas (ls_loop k n0 best bs, false).
Proof.
  intros H0. revert best bs. induction k as [|k IH]; intros best bs Hs; simpl.
  - exact Hs.
  - pose proof (ls_pass_ok m feas n0 best bs H0 Hs) as Hp.
    destruct (ls_pass n0 best bs) as [[b' bs'] imp].
    destruct imp; cbn [negb]; [apply IH|]; exact Hp.
Qed.

Lemma ft_pass_ok (m : Z) (feas : bool) (n0 : Z) (best : Cfg) (bs : num) :
  0 <= m -> ls_ok m feas (best, bs, false) -> ls_ok m feas (ft_pass n0 best bs).
Proof.
  intros H0 Hs. unfold ft_pass.
  apply fold_left_inv; [|exact Hs].
  intros s1 i _ H1. apply fold_left_inv; [|exact H1].
  intros s2 st _ H2. apply fold_left_inv; [|exact H2].
  intros s3 d _ H3. apply try_translate_ok; assumption.
Qed.

Lemma ft_loop_ok (m : Z) (feas : bool) (k : nat) (n0 : Z) (best : Cfg) (bs : num) :
  0 <= m -> ls_ok m feas (best, bs, false) ->
  ls_ok m feas (ft_loop k n0 best bs, false).
Proof.
  intros H0. revert best bs. induction k as [|k IH]; intros best bs Hs; simpl.
  - exact Hs.
  - pose proof (ft_pass_ok m feas n0 best bs H0 Hs) as Hp.
    destruct (ft_pass n0 best bs) as [[b' bs'] imp].
    destruct imp; cbn [negb]; [apply IH|]; exact Hp.
Qed.

End LocalSearch.

(** ** [resolve_overlaps], [compress_cfg] and [random_init_cfg] *)

Section Seeds.
Context {A : Arith} {G : Rng A}.
Import Par.








Hypothesis overlap_symmetric : forall u v : Poly, overlap u v = overlap v u.





End Seeds.

(** ** The local searches only accept strict improvements (exact arithmetic) *)

Section DescentR.
Import Par.
Local Open Scope R_scope.

Lemma keep_or_revert_descent (tol bs0 : R) (i : Z) (moved restored : Cfg)
      (bs : R) (imp : bool) :
  0 <= tol -> descent tol bs0 (moved, bs, imp) ->
  descent tol bs0 (keep_or_revert tol i moved restored bs imp).
Proof.
  intros Ht Hd. unfold keep_or_revert.
  assert (Hr : descent tol bs0 (restored, bs, imp)) by exact Hd.
  destruct (hasOvl moved i); cbn [negb]; [exact Hr|].
  match goal with |- context [if ?e then _ else _] => destruct e eqn:E end; [|exact Hr].
  apply Rltb_true in E. right. cbn [fst snd]. split; [reflexivity|].
  change (@sub RArith) with Rminus in E.
  destruct Hd as [[_ Hb]|[_ Hb]]; cbn [fst snd] in Hb; lra.
Qed.

Lemma try_translate_descent (tol bs0 : R) (i : Z) (ddx ddy : R) (s : Cfg * R * bool) :
  0 <= tol -> descent tol bs0 s -> descent tol bs0 (try_translate tol i ddx ddy s).
Proof.
  intros Ht Hd. destruct s as [[best bs] imp]. unfold try_translate. cbv zeta.
  apply keep_or_revert_descent; [exact Ht|exact Hd].
Qed.

Lemma try_rotate_descent (tol bs0 : R) (i : Z) (da : R) (s : Cfg * R * bool) :
  0 <= tol -> descent tol bs0 s -> descent tol bs0 (try_rotate tol i da s).
Proof.
  intros Ht Hd. destruct s as [[best bs] imp]. unfold try_rotate. cbv zeta.
  apply keep_or_revert_descent; [exact Ht|exact Hd].
Qed.

Lemma tol_ls : 0 <= Q2R 1e-10.
Proof. literals. lra. Qed.

Lemma tol_ft : 0 <= Q2R 1e-12.
Proof. literals. lra. Qed.

Lemma ls_poly_descent (bs0 : R) (i : Z) (s : Cfg * R * bool) :
  descent (Q2R 1e-10) bs0 s -> descent (Q2R 1e-10) bs0 (ls_poly i s).
Proof.
  intros Hs. unfold ls_poly.
  apply fold_left_inv.
  { intros s1 st _ H1. apply fold_left_inv; [|exact H1].
    intros s2 da _ H2. apply try_rotate_descent; [exact tol_ls|exact H2]. }
  apply fold_left_inv; [|exact Hs].
  intros s1 st _ H1. apply fold_left_inv; [|exact H1].
  intros s2 d _ H2. apply try_translate_descent; [exact tol_ls|exact H2].
Qed.

Lemma ls_pass_descent (n0 : Z) (best : Cfg) (bs : R) :
  descent (Q2R 1e-10) bs (ls_pass n0 best bs).
Proof.
  unfold ls_pass.
  apply fold_left_inv.
  { intros s i _ H1. destruct (existsb (Z.eqb i) (findCornerTrees best)); [exact H1|].
    apply ls_poly_descent. exact H1. }
  apply fold_left_inv; [|left; split; reflexivity].
  intros s ci _ H1. apply ls_poly_descent. exact H1.
Qed.

Lemma ft_pass_descent (n0 : Z) (best : Cfg) (bs : R) :
  descent (Q2R 1e-12) bs (ft_pass n0 best bs).
Proof.
  unfold ft_pass.
  apply fold_left_inv; [|left; split; reflexivity].
  intros s1 i _ H1. apply fold_left_inv; [|exact H1].
  intros s2 st _ H2. apply fold_left_inv; [|exact H2].
  intros s3 d _ H3. apply try_translate_descent; [exact tol_ft|exact H3].
Qed.

Lemma descent_le (tol bs0 : R) (s : Cfg * R * bool) :
  0 <= tol -> descent tol bs0 s -> snd (fst s) <= bs0.
Proof. intros Ht [[_ H]|[_ H]]; lra. Qed.

Lemma ls_loop_le (k : nat) (n0 : Z) :
  forall (best : Cfg) (bs : R), snd (ls_loop k n0 best bs) <= bs.
Proof.
  induction k as [|k IH]; intros best bs; simpl; [lra|].
  pose proof (descent_le _ _ _ tol_ls (ls_pass_descent n0 best bs)) as Hp.
  destruct (ls_pass n0 best bs) as [[b' bs'] imp]. cbn [fst snd] in Hp.
  destruct imp; cbn [negb snd]; [|exact Hp].
  eapply Rle_trans; [apply IH|exact Hp].
Qed.

Lemma ft_loop_le (k : nat) (n0 : Z) :
  forall (best : Cfg) (bs : R), snd (ft_loop k n0 best bs) <= bs.
Proof.
  induction k as [|k IH]; intros best bs; simpl; [lra|].
  pose proof (descent_le _ _ _ tol_ft (ft_pass_descent n0 best bs)) as Hp.
  destruct (ft_pass n0 best bs) as [[b' bs'] imp]. cbn [fst snd] in Hp.
  destruct imp; cbn [negb snd]; [|exact Hp].
  eapply Rle_trans; [apply IH|exact Hp].
Qed.

Lemma ls_start (feas : bool) (c : Cfg) :
  well_formed c -> (feas = true -> anyOvl c = false) ->
  ls_ok (n c) feas (c, side c, false).
Proof.
  intros [Hn Hc] Hf. repeat split; cbn [fst snd]; auto.
  intros E. apply (feasible_anyOvl overlap_sym). auto.
Qed.

Lemma ls_v3_side (c : Cfg) (iter : Z) :
  well_formed c -> side (ls_v3 c iter) <= side c.
Proof.
  intros Hw. unfold ls_v3.
  assert (H0 : (0 <= n c)%Z) by (destruct Hw as [[? ?] _]; lia).
  pose proof (ls_loop_ok overlap_sym (n c) false (Z.to_nat iter) (n c) c (side c) H0
                         (ls_start false c Hw (fun E => False_ind _ (diff_false_true E)))) as Hok.
  destruct Hok as (_ & _ & Hs & _). cbn [fst snd] in Hs. rewrite <- Hs.
  apply ls_loop_le.
Qed.

Lemma ft_side (c : Cfg) (max_iter : Z) :
  well_formed c -> side (fractional_translation c max_iter) <= side c.
Proof.
  intros Hw. unfold fractional_translation.
  assert (H0 : (0 <= n c)%Z) by (destruct Hw as [[? ?] _]; lia).
  pose proof (ft_loop_ok overlap_sym (n c) false (Z.to_nat max_iter) (n c) c (side c) H0
                         (ls_start false c Hw (fun E => False_ind _ (diff_false_true E)))) as Hok.
  destruct Hok as (_ & _ & Hs & _). cbn [fst snd] in Hs. rewrite <- Hs.
  apply ft_loop_le.
Qed.



End DescentR.

(* ================================================================== *)
(** * The claims of the specification *)
(* ================================================================== *)

Lemma trees_at_well_formed (m : Z) (cx cy : Z -> R) :
  1 <= m <= Par.MAX_N -> well_formed (trees_at m cx cy).
Proof. intros H. split; [exact H|]. intros i _. reflexivity. Qed.

Lemma one_tree_feasible : Par.anyOvl one_tree = false.
Proof. reflexivity. Qed.





(** C4.  In exact arithmetic, on a well-formed configuration [ls_v3] and
    [fractional_translation] return a configuration whose side is at most
    the input's; and whatever the configuration, a pass leaves the tracked
    [bs] unchanged or lowers it by more than the tolerance (1e-10 for LS,
    1e-12 for FT). *)
Theorem local_search_never_worsens (c : Par.Cfg) (iter : Z) :
  well_formed c ->
  (Par.side (Par.ls_v3 c iter) <= Par.side c)%R
  /\ (Par.side (Par.fractional_translation c iter) <= Par.side c)%R
  /\ (forall n0 best bs,
         descent (Q2R 1e-10) bs (Par.ls_pass n0 best bs)
         /\ (snd (fst (Par.ls_pass n0 best bs)) <= bs)%R)
  /\ (forall n0 best bs,
         descent (Q2R 1e-12) bs (Par.ft_pass n0 best bs)
         /\ (snd (fst (Par.ft_pass n0 best bs)) <= bs)%R).
Proof.
  intros Hw. split; [apply ls_v3_side; exact Hw|].
  split; [apply ft_side; exact Hw|]. split.
  - intros n0 best bs. split; [apply ls_pass_descent|].
    apply (descent_le _ _ _ tol_ls). apply ls_pass_descent.
  - intros n0 best bs. split; [apply ft_pass_descent|].
    apply (descent_le _ _ _ tol_ft). apply ft_pass_descent.
Qed.

Lemma local_search_never_worsens_witness :
  (Par.side (Par.ls_v3 one_tree 300) <= Par.side one_tree)%R.
Proof.
  apply (local_search_never_worsens one_tree 300).
  apply trees_at_well_formed. unfold Par.MAX_N. lia.
Defined.

(** C5.  [compress_cfg] returns its argument when [steps <= 0] or
    [factor >= 1.0], whatever the arithmetic and the engine. *)
Theorem compress_cfg_noop {A : Arith} {G : Rng A} (c : Par.Cfg) (steps : Z)
        (factor : num) (relax_iters : Z) (relax_step : num) (seed : Z) :
  steps <= 0 \/ (factor >=? lit 1.0)%num = true ->
  Par.compress_cfg c steps factor relax_iters relax_step seed = c.
Proof.
  intros H. unfold Par.compress_cfg.
  destruct H as [H|H].
  - apply Z.leb_le in H. rewrite H. reflexivity.
  - rewrite H. rewrite orb_true_r. reflexivity.
Qed.

Lemma compress_cfg_noop_witness :
  Par.compress_cfg (G := lcg) two_stacked 0 (Q2R 0.99) 60 (Q2R 0.02) 0 = two_stacked
  /\ Par.compress_cfg (G := lcg) two_stacked 5 (Q2R 1.0) 60 (Q2R 0.02) 0 = two_stacked.
Proof.
  split.
  - apply (compress_cfg_noop (G := lcg)). left. lia.
  - apply (compress_cfg_noop (G := lcg)). right.
    apply Rleb_true. apply Rle_refl.
Defined.

(** C2.  In a step of [sa_v3] whose tentative move is feasible, when the
    Metropolis test rejects ([delta < 0] is false and the uniform drawn is
    not below [exp(-delta/T)]), the step ends with [cur] set to [best], [cs]
    set to [bs], [best] and [bs] untouched, and [noImp] incremented (then
    reset by the reheat when it exceeds 600). *)
Theorem sa_reject_restarts_from_best {A : Arith} {G : Rng A}
        (fuel : nat) (n0 : Z) (T0 Tm ms rs alpha : num) (st : Par.SAState)
        (g g1 g2 g3 : rng_t) (moveType : Z) (cur' : Par.Cfg) (u : num) :
  Par.ri 8 g = (moveType, g1) ->
  Par.tentative fuel n0 ms rs (Par.T st / T0)%num moveType (Par.cur st) g1
    = (Some (cur', false), g2) ->
  (Par.side cur' - Par.cs st <? of_int 0)%num = false ->
  Par.rf g2 = (u, g3) ->
  (u <? exp (- (Par.side cur' - Par.cs st) / Par.T st))%num = false ->
  exists st',
    Par.sa_step fuel n0 T0 Tm ms rs alpha st g = (Some st', g3)
    /\ Par.cur st' = Par.best st
    /\ Par.cs st' = Par.bs st
    /\ Par.best st' = Par.best st
    /\ Par.bs st' = Par.bs st
    /\ Par.noImp st' = (if Par.noImp st + 1 >? 600 then 0 else Par.noImp st + 1).
Proof.
  intros Hm Ht Hd Hu Hx.
  exists (Par.reheat_cool T0 Tm alpha (Par.reject st)).
  split.
  - unfold Par.sa_step, Par.bind. rewrite Hm. rewrite Ht.
    unfold Par.metropolis, Par.bind. rewrite Hd, Hu, Hx. reflexivity.
  - unfold Par.reheat_cool, Par.reject. cbn [Par.noImp].
    destruct (Par.noImp st + 1 >? 600); repeat split; reflexivity.
Qed.

Lemma exp_neg_small (k : R) : (0 < k)%R -> (Rtrigo_def.exp (- k) < / k)%R.
Proof.
  intros Hk. rewrite exp_Ropp.
  apply Rinv_lt_contravar.
  - apply Rmult_lt_0_compat; [exact Hk|apply exp_pos].
  - assert (Hn : k <> 0%R) by lra. pose proof (exp_ineq1 k Hn). lra.
Qed.

Lemma sa_reject_witness :
  exists st',
    Par.sa_step (G := lcg) 0 1 1%R (Q2R 0.000005) (Q2R 0.25) 70%R (Q2R 0.999) cold_state 0
    = (Some st', lcg_at 5)
    /\ Par.cur st' = one_tree
    /\ Par.cs st' = Par.side one_tree.
Proof.
  destruct (sa_reject_restarts_from_best (G := lcg) 0 1 1%R (Q2R 0.000005) (Q2R 0.25)
              70%R (Q2R 0.999) cold_state 0 (lcg_at 1) (lcg_at 4) (lcg_at 5) 0
              one_tree_moved (lcg_unif (lcg_at 4)))
    as (st' & H1 & H2 & H3 & _).
  - reflexivity.
  - reflexivity.
  - apply Rltb_false. cbn [Par.cs cold_state]. change (@sub RArith) with Rminus.
    change (@of_int RArith 0) with 0%R.
    assert (0 < IZR (2 ^ 53))%R by (apply IZR_lt; reflexivity). lra.
  - reflexivity.
  - apply Rltb_false. cbn [Par.cs Par.T cold_state].
    change (@sub RArith) with Rminus. change (@opp RArith) with Ropp.
    change (@div RArith) with Rdiv. change (@exp RArith) with Rtrigo_def.exp.
    replace (- (Par.side one_tree_moved - (Par.side one_tree_moved - IZR (2 ^ 53))) / 1)%R
      with (- IZR (2 ^ 53))%R by (unfold Rdiv; rewrite Rinv_1; ring).
    assert (Hk : (0 < IZR (2 ^ 53))%R) by (apply IZR_lt; reflexivity).
    pose proof (exp_neg_small _ Hk) as He.
    assert (Hu : (/ IZR (2 ^ 53) <= lcg_unif (lcg_at 4))%R).
    { unfold lcg_unif.
      let v := eval vm_compute in (Z.shiftr (lcg_at 4) 11) in
        change (Z.shiftr (lcg_at 4) 11) with v.
      unfold Rdiv. rewrite <- (Rmult_1_l (/ IZR (2 ^ 53))) at 1.
      apply Rmult_le_compat_r; [left; apply Rinv_0_lt_compat; exact Hk|].
      apply IZR_le. lia. }
    lra.
  - exists st'. split; [exact H1|]. split; [exact H2|exact H3].
Defined.

(** C9.  With [n = 1] a drawn [moveType] of 4 is not a swap: the test
    [moveType == 4 && c.n > 1] fails and the step runs the joint move, in
    which [i = 0] and [j = (i + 1) % 1 = 0], so the translation [(dx, dy)] is
    added twice to polygon 0 and the feasibility test [hasOvlPair(0, 0)] is the
    overlap of that polygon with itself. *)
Theorem swap_on_single_is_double_joint {A : Arith} {G : Rng A}
        (fuel : nat) (ms rs sc : num) (cur : Par.Cfg)
        (g g1 g2 g3 : rng_t) (i : Z) (u v : num) :
  Par.n cur = 1 ->
  Par.ri 1 g = (i, g1) -> Par.rf g1 = (u, g2) -> Par.rf g2 = (v, g3) ->
  let dx := ((u - lit 0.5) * ms * sc * lit 0.5)%num in
  let dy := ((v - lit 0.5) * ms * sc * lit 0.5)%num in
  Par.tentative fuel 1 ms rs sc 4 cur
  = Par.bind (Par.move_joint 1 ms sc cur) (fun r => Par.ret (Some r))
  /\ i = 0 /\ Z.rem (i + 1) 1 = 0
  /\ exists moved reverted,
       Par.x moved 0 = (Par.x cur 0 + dx + dx)%num
       /\ Par.y moved 0 = (Par.y cur 0 + dy + dy)%num
       /\ Par.pl moved 0
          = Par.getPoly (Par.x cur 0 + dx + dx)%num (Par.y cur 0 + dy + dy)%num (Par.a cur 0)
       /\ Par.hasOvlPair moved 0 0 = Par.overlap (Par.pl moved 0) (Par.pl moved 0)
       /\ Par.x reverted 0 = Par.x cur 0 /\ Par.y reverted 0 = Par.y cur 0
       /\ Par.tentative fuel 1 ms rs sc 4 cur g
          = (Some (if Par.overlap (Par.pl moved 0) (Par.pl moved 0)
                   then (reverted, true) else (moved, false)), g3).
Proof.
  intros Hn Hi Hu Hv dx dy.
  assert (Ei : i = 0).
  { unfold Par.ri in Hi. destruct (rng_raw g) as [r g']. injection Hi as <- _.
    apply Z.mod_1_r. }
  subst i.
  split; [reflexivity|]. split; [reflexivity|]. split; [reflexivity|].
  set (c4 := Par.set_y
               (Par.set_x
                  (Par.set_y (Par.set_x cur 0 (Par.x cur 0 + dx)%num) 0
                             (Par.y cur 0 + dy)%num)
                  0 (Par.x cur 0 + dx + dx)%num)
               0 (Par.y cur 0 + dy + dy)%num).
  set (moved := Par.upd (Par.upd c4 0) 0).
  set (reverted :=
         Par.upd (Par.upd
           (Par.set_y (Par.set_x
              (Par.set_y (Par.set_x moved 0 (Par.x cur 0)) 0 (Par.y cur 0))
              0 (Par.x cur 0)) 0 (Par.y cur 0)) 0) 0).
  assert (Hp : Par.hasOvlPair moved 0 0 = Par.overlap (Par.pl moved 0) (Par.pl moved 0)).
  { unfold Par.hasOvlPair.
    destruct (Par.overlap (Par.pl moved 0) (Par.pl moved 0)); [reflexivity|].
    replace (Par.n moved) with 1 by (symmetry; exact Hn). reflexivity. }
  exists moved, reverted.
  repeat split; try reflexivity; try exact Hp.
  change (Par.tentative fuel 1 ms rs sc 4 cur)
    with (Par.bind (Par.move_joint 1 ms sc cur) (fun r => Par.ret (Some r))).
  unfold Par.move_joint, Par.bind, Par.ret.
  rewrite Hi. change (Z.rem (0 + 1) 1) with 0. rewrite Hu, Hv.
  match goal with |- context [Par.hasOvlPair ?c 0 0] =>
    change c with moved end.
  rewrite Hp. destruct (Par.overlap (Par.pl moved 0) (Par.pl moved 0)); reflexivity.
Qed.

Lemma swap_on_single_witness :
  exists moved reverted,
    Par.tentative (G := lcg) 0 1 (Q2R 0.25) 70%R 1%R 4 one_tree 0
    = (Some (if Par.overlap (Par.pl moved 0) (Par.pl moved 0)
             then (reverted, true) else (moved, false)), lcg_at 3).
Proof.
  destruct (swap_on_single_is_double_joint (G := lcg) 0 (Q2R 0.25) 70%R 1%R one_tree
              0 (lcg_at 1) (lcg_at 2) (lcg_at 3) 0 (lcg_unif (lcg_at 1))
              (lcg_unif (lcg_at 2)) eq_refl eq_refl eq_refl eq_refl)
    as (_ & _ & _ & moved & reverted & H).
  exists moved, reverted. apply H.
Defined.

(** ** Pushing an overlapping pair apart (exact arithmetic) *)

Section PushR.
Import Par.
Context {G : Rng RArith}.
Local Open Scope R_scope.




End PushR.

Section CrossingR.
Import Par.
Local Open Scope R_scope.







End CrossingR.

(** ** A local search that cannot leave an overlap (exact arithmetic) *)

Section StuckR.
Import Par.
Local Open Scope R_scope.








End StuckR.






(** ** The single-group tool: [perturb] clamps (exact arithmetic) *)

Section ClampR.
Import Single.
Local Open Scope R_scope.

Lemma clamp_box (v : R) : -100 <= clamp v (Q2R (-100.0)) (Q2R 100.0) <= 100.
Proof.
  unfold clamp. rewrite fmax_R, fmin_R. literals.
  unfold Rmax, Rmin.
  repeat match goal with |- context [Rle_dec ?u ?w] => destruct (Rle_dec u w) end; lra.
Qed.

Lemma set_nth_length {X : Type} (l : list X) (k : nat) (v : X) :
  List.length (set_nth l k v) = List.length l.
Proof.
  revert k. induction l as [|w l IH]; intros [|k]; simpl; auto.
Qed.

Lemma set_at_length {X : Type} (l : list X) (i : Z) (v : X) :
  List.length (set_at l i v) = List.length l.
Proof. unfold set_at. destruct (i <? 0)%Z; [reflexivity|apply set_nth_length]. Qed.

Lemma at_set_at_same {X : Type} (l : list X) (i : Z) (v d : X) :
  (0 <= i < Z.of_nat (List.length l))%Z -> at_ (set_at l i v) i d = v.
Proof.
  intros Hi. unfold at_, set_at. destruct (Z.ltb_spec i 0); [lia|].
  assert (Hk : (Z.to_nat i < List.length l)%nat) by lia.
  revert Hk. generalize (Z.to_nat i). clear.
  induction l as [|w l IH]; intros [|k] Hk; simpl in *; try lia; auto.
  apply IH. lia.
Qed.

Lemma at_set_at_other {X : Type} (l : list X) (i k : Z) (v d : X) :
  k <> i -> at_ (set_at l i v) k d = at_ l k d.
Proof.
  intros Hne. unfold at_, set_at.
  destruct (Z.ltb_spec k 0); [reflexivity|].
  destruct (Z.ltb_spec i 0); [reflexivity|].
  assert (Hn : Z.to_nat k <> Z.to_nat i) by lia.
  revert Hn. generalize (Z.to_nat k) (Z.to_nat i). clear.
  induction l as [|w l IH]; intros [|a] [|b] Hn; simpl; auto; try congruence.
Qed.

Lemma kept_or_boxed_refl (l : list Tree) : kept_or_boxed l l.
Proof. induction l; constructor; auto. Qed.

Lemma kept_or_boxed_set_nth (base l : list Tree) (k : nat) (v : Tree) :
  kept_or_boxed base l -> in_box v -> kept_or_boxed base (set_nth l k v).
Proof.
  intros H Hv. revert k. induction H as [|tb tr base l Hh Ht IH]; intros k; simpl.
  - constructor.
  - destruct k as [|k]; constructor; auto. apply IH.
Qed.

Lemma kept_or_boxed_set_at (base l : list Tree) (i : Z) (v : Tree) :
  kept_or_boxed base l -> in_box v -> kept_or_boxed base (set_at l i v).
Proof.
  intros H Hv. unfold set_at. destruct (i <? 0)%Z; [exact H|].
  apply kept_or_boxed_set_nth; assumption.
Qed.

Lemma t_updAll (c : Cfg) : t (updAll c) = t c.
Proof.
  unfold updAll. apply (fold_left_inv upd (fun c' => t c' = t c)); [|reflexivity].
  intros c' i _ H. exact H.
Qed.

(** The trees that [perturb] leaves, and the index it drew. *)
Lemma perturb_trees (c : Cfg) (move_scale ang_scale : R) (g : FastRNG) :
  exists v : Tree,
    in_box v
    /\ t (fst (perturb c move_scale ang_scale g)) = set_at (t c) (fst (ri (n c) g)) v.
Proof.
  unfold perturb, bind, ret, rf2, bind, ret.
  destruct (ri (n c) g) as [i g1]. destruct (rf g1) as [u g2].
  destruct (rf g2) as [v g3]. destruct (rf g3) as [w g4]. cbn [fst].
  eexists. split; [|reflexivity].
  split; cbn [x y]; apply clamp_box.
Qed.

Lemma perturb_kept_or_boxed (base : list Tree) (c : Cfg) (move_scale ang_scale : R)
      (g : FastRNG) :
  kept_or_boxed base (t c) ->
  kept_or_boxed base (t (fst (perturb c move_scale ang_scale g))).
Proof.
  intros H. destruct (perturb_trees c move_scale ang_scale g) as (v & Hv & ->).
  apply kept_or_boxed_set_at; assumption.
Qed.

Lemma opt_step_kept_or_boxed (base : list Tree) (iters : Z) (st : Cfg * Cfg * R)
      (i : Z) (g : FastRNG) :
  kept_or_boxed base (t (fst (fst st))) -> kept_or_boxed base (t (snd (fst st))) ->
  kept_or_boxed base (t (fst (fst (fst (opt_step iters st i g)))))
  /\ kept_or_boxed base (t (snd (fst (fst (opt_step iters st i g))))).
Proof.
  destruct st as [[cur best] bestScore]. cbn [fst snd]. intros Hc Hb.
  unfold opt_step, bind.
  pose proof (perturb_kept_or_boxed base (copyCfg cur)
                (lit 0.08 * (lit 1.0 - of_int i / of_int iters * lit 0.85))%num
                (lit 20.0 * (lit 1.0 - of_int i / of_int iters * lit 0.85))%num g Hc) as Hp.
  destruct (perturb (copyCfg cur) _ _ g) as [cand g'] eqn:E. cbn [fst] in Hp.
  destruct (anyOvl cand); [cbn; auto|].
  match goal with |- context [if ?e then _ else _] => destruct e end; cbn; auto.
Qed.

Lemma opt_loop_kept_or_boxed (base : list Tree) (iters : Z) (l : list Z) :
  forall (st : Cfg * Cfg * R) (g : FastRNG),
    kept_or_boxed base (t (fst (fst st))) -> kept_or_boxed base (t (snd (fst st))) ->
    kept_or_boxed base (t (snd (fst (fst (foldM (opt_step iters) l st g))))).
Proof.
  induction l as [|i l IH]; intros st g Hc Hb; simpl.
  - exact Hb.
  - unfold bind.
    destruct (opt_step_kept_or_boxed base iters st i g Hc Hb) as [H1 H2].
    destruct (opt_step iters st i g) as [st' g']. cbn [fst] in H1, H2.
    apply IH; assumption.
Qed.

Lemma optimizeOne_kept_or_boxed (base : Cfg) (iters seed : Z) :
  kept_or_boxed (t base) (t (optimizeOne base iters seed)).
Proof.
  unfold optimizeOne. cbv zeta.
  pose proof (opt_loop_kept_or_boxed (t base) iters (range 0 iters)
                (updAll (copyCfg base), copyCfg (updAll (copyCfg base)),
                 score (updAll (copyCfg base))) (seedRNG seed)) as H.
  cbn [fst snd] in H.
  destruct (fst (foldM (opt_step iters) (range 0 iters) _ (seedRNG seed)))
    as [[cur best] sc]. cbn [fst snd] in H. apply H.
  - rewrite t_updAll. apply kept_or_boxed_refl.
  - cbn [copyCfg t]. rewrite t_updAll. apply kept_or_boxed_refl.
Qed.

End ClampR.

Lemma kept_or_boxed_at (base res : list Single.Tree) (k : Z) (d : Single.Tree) :
  kept_or_boxed base res -> 0 <= k < Z.of_nat (List.length base) ->
  Single.at_ res k d = Single.at_ base k d \/ in_box (Single.at_ res k d).
Proof.
  intros H Hk. unfold Single.at_. destruct (Z.ltb_spec k 0); [lia|].
  assert (Hn : (Z.to_nat k < List.length base)%nat) by lia.
  revert Hn. generalize (Z.to_nat k). clear Hk H0.
  induction H as [|tb tr base res Hh Ht IH]; intros [|m] Hm; simpl in *; try lia.
  - exact Hh.
  - apply IH. lia.
Qed.

(** C10.  In exact arithmetic, [perturb] leaves the polygon it moved with
    [x] and [y] in [[-100, 100]] and the other trees as they were; hence in
    the configuration that [optimizeOne] returns every tree is the one of
    the input or has [x] and [y] in [[-100, 100]]. *)
Theorem perturb_clamps_positions :
  (forall (c : Single.Cfg) (move_scale ang_scale : R) (g : Single.FastRNG),
      let i := fst (Single.ri (Single.n c) g) in
      let c' := fst (Single.perturb c move_scale ang_scale g) in
      (0 <= i < Z.of_nat (List.length (Single.t c)) -> in_box (Single.tree c' i))
      /\ (forall k, k <> i -> Single.tree c' k = Single.tree c k))
  /\ (forall (base : Single.Cfg) (iters seed : Z),
         kept_or_boxed (Single.t base) (Single.t (Single.optimizeOne base iters seed)))
  /\ (forall (base : Single.Cfg) (iters seed k : Z),
         0 <= k < Z.of_nat (List.length (Single.t base)) ->
         Single.tree (Single.optimizeOne base iters seed) k = Single.tree base k
         \/ in_box (Single.tree (Single.optimizeOne base iters seed) k)).
Proof.
  split; [|split].
  - intros c ms asc g i c'.
    destruct (perturb_trees c ms asc g) as (v & Hv & Ht).
    fold i in Ht. fold c' in Ht. unfold Single.tree. rewrite Ht. split.
    + intros Hi. rewrite at_set_at_same by exact Hi. exact Hv.
    + intros k Hk. apply at_set_at_other. exact Hk.
  - exact optimizeOne_kept_or_boxed.
  - intros base iters seed k Hk. unfold Single.tree.
    apply kept_or_boxed_at; [apply optimizeOne_kept_or_boxed|exact Hk].
Qed.

Lemma perturb_clamps_witness :
  in_box (Single.tree
            (fst (Single.perturb single_tree (Q2R 0.08) 20%R (Single.seedRNG 1234))) 0).
Proof.
  destruct perturb_clamps_positions as (H & _).
  destruct (H single_tree (Q2R 0.08) 20%R (Single.seedRNG 1234)) as (H1 & _).
  apply H1. split; reflexivity.
Defined.

(** ** The single-group tool: when the output is written *)

Section SaveDecision.
Context {A : Arith}.
Import Single.


End SaveDecision.




(** ** The loader of the generation driver *)

Lemma upd_at_comm {V : Type} (f : Z -> V) (i j : Z) (v w : V) :
  i <> j -> upd_at (upd_at f i v) j w = upd_at (upd_at f j w) i v.
Proof.
  intros Hne. apply functional_extensionality. intros k. unfold upd_at.
  destruct (Z.eqb_spec k j), (Z.eqb_spec k i); try reflexivity. congruence.
Qed.

Lemma mapM_opt_perm {X Y : Type} (f : X -> option Y) (l l' : list X) :
  Permutation l l' ->
  match mapM_opt f l, mapM_opt f l' with
  | Some r, Some r' => Permutation r r'
  | None, None => True
  | _, _ => False
  end.
Proof.
  intros H. induction H as [|v l l' H IH|v w l|l l' l'' H1 IH1 H2 IH2]; simpl.
  - constructor.
  - destruct (f v); [|exact I].
    destruct (mapM_opt f l), (mapM_opt f l'); try contradiction; auto.
  - destruct (f v), (f w); try exact I;
      destruct (mapM_opt f l); try exact I. apply perm_swap.
  - destruct (mapM_opt f l), (mapM_opt f l'), (mapM_opt f l''); try contradiction; auto.
    eapply Permutation_trans; eassumption.
Qed.

Section LoaderPar.
Context {A : Arith}.
Import Par.

Lemma write_row_n (c c' : Cfg) (r : Row) : write_row c r = Some c' -> n c' = n c.
Proof.
  unfold write_row. destruct (ridx r <? n c).
  - destruct ((0 <=? ridx r) && (ridx r <? MAX_N)); [|discriminate].
    intros H. injection H as <-. reflexivity.
  - intros H. injection H as <-. reflexivity.
Qed.

Lemma write_row_comm (c : Cfg) (r1 r2 : Row) :
  ridx r1 <> ridx r2 ->
  (c1 <-? write_row c r1 ;; write_row c1 r2) = (c2 <-? write_row c r2 ;; write_row c2 r1).
Proof.
  intros Hne. unfold write_row.
  destruct (ridx r1 <? n c) eqn:E1, (ridx r2 <? n c) eqn:E2;
    try destruct ((0 <=? ridx r1) && (ridx r1 <? MAX_N)) eqn:B1;
    try destruct ((0 <=? ridx r2) && (ridx r2 <? MAX_N)) eqn:B2;
    cbn [n set_x set_y set_a]; rewrite ?E1, ?E2, ?B1, ?B2; try reflexivity.
  unfold set_a, set_y, set_x. cbn [n x y a pl].
  rewrite (upd_at_comm (x c) (ridx r1) (ridx r2)) by exact Hne.
  rewrite (upd_at_comm (y c) (ridx r1) (ridx r2)) by exact Hne.
  rewrite (upd_at_comm (a c) (ridx r1) (ridx r2)) by exact Hne.
  reflexivity.
Qed.

Lemma write_rows_perm (v v' : list Row) :
  Permutation v v' -> NoDup (map ridx v) -> forall c, write_rows c v = write_rows c v'.
Proof.
  intros H. induction H as [|r v v' H IH|r1 r2 v|v v' v'' H1 IH1 H2 IH2];
    intros Hnd c; simpl.
  - reflexivity.
  - inversion Hnd; subst. destruct (write_row c r); [apply IH; assumption|reflexivity].
  - inversion Hnd as [|? ? Hin Hnd']; subst.
    assert (Hne : ridx r2 <> ridx r1).
    { intros E. apply Hin. left. symmetry. exact E. }
    pose proof (write_row_comm c r2 r1 Hne) as Hc.
    destruct (write_row c r2) as [c2|], (write_row c r1) as [c1|]; simpl in Hc.
    + destruct (write_row c2 r1), (write_row c1 r2); try discriminate;
        try reflexivity. injection Hc as ->. reflexivity.
    + destruct (write_row c2 r1); [discriminate|reflexivity].
    + destruct (write_row c1 r2); [discriminate|reflexivity].
    + reflexivity.
  - rewrite IH1 by assumption. apply IH2.
    apply (Permutation_NoDup (Permutation_map ridx H1)). exact Hnd.
Qed.

Lemma load_group_perm (nn : Z) (v v' : list Row) :
  Permutation v v' -> NoDup (map ridx v) -> load_group nn v = load_group nn v'.
Proof.
  intros H Hnd. unfold load_group. rewrite (write_rows_perm v v' H Hnd). reflexivity.
Qed.

Lemma group_perm (nn : Z) (rows rows' : list Row) :
  Permutation rows rows' -> Permutation (group nn rows) (group nn rows').
Proof.
  intros H. unfold group.
  induction H as [|r l l' H IH|r1 r2 l|l l' l'' H1 IH1 H2 IH2]; simpl.
  - constructor.
  - destruct (rn r =? nn); [constructor|]; assumption.
  - destruct (rn r1 =? nn), (rn r2 =? nn); try apply Permutation_refl. apply perm_swap.
  - eapply Permutation_trans; eassumption.
Qed.

Lemma group_nodup (nn : Z) (rows : list Row) :
  NoDup (map row_key rows) -> NoDup (map ridx (group nn rows)).
Proof.
  unfold group. induction rows as [|r rows IH]; intros H; simpl.
  - constructor.
  - inversion H as [|? ? Hin Hnd]; subst.
    destruct (Z.eqb_spec (rn r) nn) as [E|E]; [|apply IH; exact Hnd].
    simpl. constructor; [|apply IH; exact Hnd].
    intros Hi. apply Hin. apply in_map_iff in Hi. destruct Hi as (r' & Hr' & Hf).
    apply filter_In in Hf. destruct Hf as [Hf1 Hf2]. apply Z.eqb_eq in Hf2.
    apply in_map_iff. exists r'. split; [|exact Hf1].
    unfold row_key. congruence.
Qed.

Lemma load_rows_perm (rows rows' : list Row) :
  Permutation rows rows' -> NoDup (map row_key rows) -> load_rows rows = load_rows rows'.
Proof.
  intros H Hnd. unfold load_rows.
  assert (Hg : forall nn, load_group nn (group nn rows) = load_group nn (group nn rows')).
  { intros nn. apply load_group_perm; [apply group_perm; exact H|].
    apply group_nodup. exact Hnd. }
  assert (Hf : forallb (fun r => match load_group (rn r) (group (rn r) rows) with
                                 | Some _ => true | None => false end) rows
               = forallb (fun r => match load_group (rn r) (group (rn r) rows') with
                                   | Some _ => true | None => false end) rows').
  { apply eq_true_iff_eq. rewrite !forallb_forall. split; intros K r Hr; cbv beta.
    - rewrite <- Hg. apply (K r). apply (Permutation_in r (Permutation_sym H)). exact Hr.
    - rewrite Hg. apply (K r). apply (Permutation_in r H). exact Hr. }
  rewrite Hf. destruct (forallb _ rows'); [|reflexivity].
  f_equal. apply functional_extensionality. intros nn.
  pose proof (group_perm nn rows rows' H) as Hp. pose proof (Hg nn) as Hgn.
  destruct (group nn rows) as [|r v], (group nn rows') as [|r' v'].
  - reflexivity.
  - apply Permutation_nil in Hp. discriminate.
  - apply Permutation_sym, Permutation_nil in Hp. discriminate.
  - exact Hgn.
Qed.

(** Permuting the data lines of a file whose identifiers are distinct. *)
Lemma loadCSV_perm (header : string) (lines lines' : list string) :
  Permutation lines lines' ->
  (forall rows, mapM_opt parse_line lines = Some rows -> NoDup (map row_key rows)) ->
  loadCSV (Some (header :: lines)) = loadCSV (Some (header :: lines')).
Proof.
  intros H Hnd. unfold loadCSV. cbn [tl].
  pose proof (mapM_opt_perm parse_line lines lines' H) as Hp.
  destruct (mapM_opt parse_line lines) as [rows|],
           (mapM_opt parse_line lines') as [rows'|]; try contradiction; [|reflexivity].
  apply load_rows_perm; [exact Hp|]. apply Hnd. reflexivity.
Qed.

End LoaderPar.

Section LoaderParRows.
Context {A : Arith}.
Import Par.

Lemma fold_upd_spec (l : list Z) :
  forall c : Cfg,
    n (fold_left upd l c) = n c /\ x (fold_left upd l c) = x c
    /\ y (fold_left upd l c) = y c /\ a (fold_left upd l c) = a c
    /\ forall k, pl (fold_left upd l c) k
                 = if existsb (Z.eqb k) l then getPoly (x c k) (y c k) (a c k)
                   else pl c k.
Proof.
  induction l as [|i l IH]; intros c; simpl.
  - repeat split; reflexivity.
  - destruct (IH (upd c i)) as (H1 & H2 & H3 & H4 & H5).
    rewrite H1, H2, H3, H4. repeat split; try reflexivity.
    intros k. rewrite H5. cbn [x y a pl upd set_pl]. unfold upd_at.
    destruct (existsb (Z.eqb k) l); [rewrite orb_true_r; reflexivity|].
    rewrite orb_false_r. destruct (Z.eqb_spec k i) as [E|_]; [rewrite E|]; reflexivity.
Qed.

Lemma updAll_spec (c : Cfg) :
  n (updAll c) = n c /\ x (updAll c) = x c /\ y (updAll c) = y c /\ a (updAll c) = a c
  /\ forall k, 0 <= k < n c -> pl (updAll c) k = getPoly (x c k) (y c k) (a c k).
Proof.
  unfold updAll. destruct (fold_upd_spec (range 0 (n c)) c) as (H1 & H2 & H3 & H4 & H5).
  repeat split; try assumption.
  intros k Hk. rewrite H5.
  replace (existsb (Z.eqb k) (range 0 (n c))) with true; [reflexivity|].
  symmetry. apply existsb_exists. exists k. split; [apply in_range; exact Hk|].
  apply Z.eqb_refl.
Qed.

Lemma write_rows_n (v : list Row) :
  forall c c', write_rows c v = Some c' -> n c' = n c.
Proof.
  induction v as [|r v IH]; intros c c' H; simpl in H.
  - injection H as <-. reflexivity.
  - destruct (write_row c r) as [c1|] eqn:E; [|discriminate].
    rewrite (IH c1 c' H). exact (write_row_n c c1 r E).
Qed.

Lemma write_rows_other (v : list Row) :
  forall c c', write_rows c v = Some c' ->
  forall k, ~ In k (map ridx v) -> x c' k = x c k /\ y c' k = y c k /\ a c' k = a c k.
Proof.
  induction v as [|r v IH]; intros c c' H k Hk; simpl in H.
  - injection H as <-. auto.
  - destruct (write_row c r) as [c1|] eqn:E; [|discriminate].
    destruct (IH c1 c' H k) as (-> & -> & ->).
    { intros Hi. apply Hk. right. exact Hi. }
    assert (Hne : k <> ridx r) by (intros ->; apply Hk; left; reflexivity).
    unfold write_row in E. destruct (ridx r <? n c).
    + destruct ((0 <=? ridx r) && (ridx r <? MAX_N)); [|discriminate].
      injection E as <-. cbn [x y a set_x set_y set_a]. unfold upd_at.
      destruct (Z.eqb_spec k (ridx r)); [contradiction|auto].
    + injection E as <-. auto.
Qed.

(** A row [NNN_i] with [i < N] sets pose [i]; the load only succeeds when
    such an [i] is not negative. *)
Lemma write_rows_sets (v : list Row) :
  forall c c', write_rows c v = Some c' -> NoDup (map ridx v) ->
  forall r, In r v -> ridx r < n c ->
            0 <= ridx r
            /\ x c' (ridx r) = rx r /\ y c' (ridx r) = ry r /\ a c' (ridx r) = rd r.
Proof.
  induction v as [|r0 v IH]; intros c c' H Hnd r Hr Hlt; simpl in H; [contradiction|].
  destruct (write_row c r0) as [c1|] eqn:E; [|discriminate].
  inversion Hnd as [|? ? Hin Hnd']; subst.
  destruct Hr as [->|Hr].
  - destruct (write_rows_other v c1 c' H (ridx r) Hin) as (-> & -> & ->).
    unfold write_row in E. apply Z.ltb_lt in Hlt. rewrite Hlt in E.
    destruct ((0 <=? ridx r) && (ridx r <? MAX_N)) eqn:B; [|discriminate].
    injection E as <-. cbn [x y a set_x set_y set_a]. unfold upd_at.
    rewrite Z.eqb_refl. apply andb_true_iff in B. destruct B as [B _].
    apply Z.leb_le in B. auto.
  - apply (IH c1 c' H Hnd' r Hr). rewrite (write_row_n c c1 r0 E). exact Hlt.
Qed.

(** Rows whose index is not below [N] change nothing. *)
Lemma write_rows_filter (v : list Row) :
  forall c, write_rows c v = write_rows c (filter (fun r => ridx r <? n c) v).
Proof.
  induction v as [|r v IH]; intros c; simpl; [reflexivity|].
  destruct (ridx r <? n c) eqn:E.
  - simpl. destruct (write_row c r) as [c1|] eqn:E1; [|reflexivity].
    rewrite (IH c1). rewrite (write_row_n c c1 r E1). reflexivity.
  - unfold write_row. rewrite E. apply IH.
Qed.

Lemma load_rows_group (rows : list Row) (m : Z -> option Cfg) (nn : Z) (c : Cfg) :
  load_rows rows = Some m -> m nn = Some c ->
  load_group nn (group nn rows) = Some c.
Proof.
  unfold load_rows.
  destruct (forallb _ rows); [|discriminate].
  intros H. injection H as <-.
  destruct (group nn rows) as [|r v]; [discriminate|]. auto.
Qed.

Lemma load_group_inv (nn : Z) (v : list Row) (c : Cfg) :
  load_group nn v = Some c ->
  exists c0, write_rows (set_n empty_cfg nn) v = Some c0 /\ c = updAll c0 /\ n c0 = nn.
Proof.
  unfold load_group.
  destruct (write_rows (set_n empty_cfg nn) v) as [c0|] eqn:E; [|discriminate].
  destruct (MAX_N <? nn); [discriminate|]. intros H. injection H as <-.
  exists c0. repeat split. exact (write_rows_n v _ _ E).
Qed.

Lemma load_rows_present (rows : list Row) (m : Z -> option Cfg) (r : Row) :
  load_rows rows = Some m -> In r rows ->
  exists c, m (rn r) = Some c /\ n c = rn r.
Proof.
  unfold load_rows.
  destruct (forallb _ rows) eqn:F; [|discriminate].
  intros H Hr. injection H as <-.
  rewrite forallb_forall in F. specialize (F r Hr). cbv beta in F.
  assert (Hg : In r (group (rn r) rows)).
  { apply filter_In. split; [exact Hr|apply Z.eqb_refl]. }
  destruct (group (rn r) rows) as [|r0 v] eqn:E; [contradiction|].
  destruct (load_group (rn r) (r0 :: v)) as [c|] eqn:L; [|discriminate].
  exists c. split; [reflexivity|].
  destruct (load_group_inv _ _ _ L) as (c0 & _ & -> & Hn).
  destruct (updAll_spec c0) as (-> & _). exact Hn.
Qed.

End LoaderParRows.

(** ** The loader of the single-group tool *)

Section LoaderSingle.
Context {A : Arith}.
Import Single.

Lemma updAll_keeps (c : Cfg) : n (updAll c) = n c /\ t (updAll c) = t c.
Proof.
  unfold updAll.
  apply (fold_left_inv upd (fun c' => n c' = n c /\ t c' = t c)); [|split; reflexivity].
  intros c' i _ H. exact H.
Qed.

Lemma mapM_opt_length {X Y : Type} (f : X -> option Y) (l : list X) (r : list Y) :
  mapM_opt f l = Some r -> List.length r = List.length l.
Proof.
  revert r. induction l as [|v l IH]; intros r H; simpl in H.
  - injection H as <-. reflexivity.
  - destruct (f v); [|discriminate]. destruct (mapM_opt f l) as [ws|]; [|discriminate].
    injection H as <-. simpl. rewrite (IH ws eq_refl). reflexivity.
Qed.

Lemma count_rows_spec (rows : list (list string)) :
  forall cnt cnt', count_rows rows cnt = Some cnt' ->
  forall g, cnt' g = cnt g + Z.of_nat (List.length (rows_of g rows)).
Proof.
  induction rows as [|r rows IH]; intros cnt cnt' H g; simpl in H.
  - injection H as <-. simpl. lia.
  - unfold rows_of. simpl. fold (rows_of g rows).
    destruct (row_group r) as [g0|] eqn:E; [|discriminate].
    rewrite (IH _ _ H g). unfold upd_at.
    destruct (Z.eqb_spec g g0) as [Eg|Hne].
    + subst g0. rewrite Z.eqb_refl. simpl List.length. lia.
    + destruct (Z.eqb_spec g0 g) as [E'|_]; [congruence|]. lia.
Qed.

Lemma fill_rows_spec (rows : list (list string)) :
  forall idx res res', fill_rows rows idx res = Some res' ->
  forall g,
    match res g with
    | None => res' g = None
    | Some c =>
        exists trees,
          mapM_opt tree_of (rows_of g rows) = Some trees
          /\ res' g = Some {| n := n c; t := write_seq (t c) (idx g) trees; p := p c |}
    end.
Proof.
  induction rows as [|r rows IH]; intros idx res res' H g; simpl in H.
  - injection H as <-. destruct (res g) as [c|]; [|reflexivity].
    exists []. split; [reflexivity|]. destruct c; reflexivity.
  - unfold rows_of. simpl. fold (rows_of g rows).
    destruct (row_group r) as [g0|] eqn:E; [|discriminate].
    destruct (res g0) as [c0|] eqn:E0; [|discriminate].
    destruct (parseVal (col r 1)) as [vx|] eqn:P1; [|discriminate].
    destruct (parseVal (col r 2)) as [vy|] eqn:P2; [|discriminate].
    destruct (parseVal (col r 3)) as [vd|] eqn:P3; [|discriminate].
    specialize (IH _ _ _ H g). unfold upd_at in IH.
    destruct (Z.eqb_spec g g0) as [Eg|Hne].
    + subst g0. rewrite Z.eqb_refl, E0. destruct IH as (trees & Ht & Hr).
      exists ({| x := vx; y := vy; deg := vd |} :: trees). split.
      * simpl. unfold tree_of at 1. rewrite P1, P2, P3, Ht. reflexivity.
      * exact Hr.
    + destruct (Z.eqb_spec g0 g) as [E'|_]; [congruence|]. exact IH.
Qed.

Lemma set_nth_app {X : Type} (done rest : list X) (w v : X) :
  set_nth (done ++ w :: rest) (List.length done) v = done ++ v :: rest.
Proof. induction done as [|d done IH]; simpl; [reflexivity|]. rewrite IH. reflexivity. Qed.

Lemma write_seq_full (z : Tree) (vs : list Tree) :
  forall done : list Tree,
    write_seq (done ++ repeat z (List.length vs)) (Z.of_nat (List.length done)) vs
    = done ++ vs.
Proof.
  induction vs as [|v vs IH]; intros done; simpl.
  - reflexivity.
  - unfold set_at. destruct (Z.ltb_spec (Z.of_nat (List.length done)) 0); [lia|].
    rewrite Nat2Z.id, set_nth_app.
    replace (done ++ v :: repeat z (List.length vs))
      with ((done ++ [v]) ++ repeat z (List.length vs))
      by (rewrite <- app_assoc; reflexivity).
    replace (Z.of_nat (List.length done) + 1) with (Z.of_nat (List.length (done ++ [v])))
      by (rewrite length_app; simpl; lia).
    rewrite IH. rewrite <- app_assoc. reflexivity.
Qed.

(** The group [g] that [loadCSV] returns has as many trees as the file has
    rows of that group, and its [k]-th tree is the [k]-th such row. *)
Lemma single_load_positional (file : option (list string)) (m : Z -> option Cfg)
      (g : Z) (c : Cfg) :
  loadCSV file = Some m -> m g = Some c ->
  n c = Z.of_nat (List.length (rows_of g (data_rows file)))
  /\ mapM_opt tree_of (rows_of g (data_rows file)) = Some (t c).
Proof.
  unfold loadCSV. fold (data_rows file). set (rows := data_rows file).
  destruct (count_rows rows (fun _ => 0)) as [cnt|] eqn:Ec; [|discriminate].
  destruct (fill_rows rows (fun _ => 0) _) as [res'|] eqn:Ef; [|discriminate].
  intros H Hg. injection H as <-.
  pose proof (count_rows_spec rows _ _ Ec g) as Hcnt. simpl in Hcnt.
  pose proof (fill_rows_spec rows _ _ _ Ef g) as Hfill. cbv beta in Hfill.
  destruct (res' g) as [c1|] eqn:E1; [|discriminate]. injection Hg as <-.
  destruct (updAll_keeps c1) as [-> ->].
  destruct (Z.eqb_spec (cnt g) 0) as [E0|E0]; [discriminate|].
  destruct Hfill as (trees & Ht & Hr). injection Hr as ->.
  cbn [n t mkCfg]. split; [exact Hcnt|].
  rewrite Ht. f_equal.
  pose proof (mapM_opt_length _ _ _ Ht) as Hl.
  replace (Z.to_nat (cnt g)) with (List.length trees) by lia.
  symmetry. exact (write_seq_full zero_tree trees []).
Qed.

End LoaderSingle.

(** C7 (as amended).  On a file whose row identifiers are pairwise
    distinct, the loader of the generation driver does not depend on the
    order of the data rows; every row [NNN_i] makes group [N] exist with
    [n = N] (however few rows the group has), a row with [i < N] sets pose
    [i] and its polygon, and the rows with [i >= N] change nothing.  The
    loader of the single-group tool is positional instead: a group has as
    many trees as the file has rows for it, the [k]-th of them in file order
    being tree [k], whatever the indices say. *)
Theorem loaders_read_rows {A : Arith} (header : string) (lines : list string) :
  (forall rows, mapM_opt Par.parse_line lines = Some rows -> NoDup (map row_key rows)) ->
  (forall lines',
      Permutation lines lines' ->
      Par.loadCSV (Some (header :: lines)) = Par.loadCSV (Some (header :: lines')))
  /\ (forall rows m r,
         mapM_opt Par.parse_line lines = Some rows ->
         Par.loadCSV (Some (header :: lines)) = Some m ->
         In r rows ->
         exists c,
           m (Par.rn r) = Some c /\ Par.n c = Par.rn r
           /\ (Par.ridx r < Par.rn r ->
               0 <= Par.ridx r
               /\ Par.x c (Par.ridx r) = Par.rx r /\ Par.y c (Par.ridx r) = Par.ry r
               /\ Par.a c (Par.ridx r) = Par.rd r
               /\ Par.pl c (Par.ridx r) = Par.getPoly (Par.rx r) (Par.ry r) (Par.rd r))
           /\ Par.load_group (Par.rn r)
                (filter (fun r' => Par.ridx r' <? Par.rn r) (Par.group (Par.rn r) rows))
              = Some c)
  /\ (forall file m g c,
         Single.loadCSV file = Some m -> m g = Some c ->
         Single.n c = Z.of_nat (List.length (rows_of g (data_rows file)))
         /\ mapM_opt tree_of (rows_of g (data_rows file)) = Some (Single.t c)).
Proof.
  intros Hnd. split; [|split].
  - intros lines' Hp. apply loadCSV_perm; assumption.
  - intros rows m r Hrows Hm Hr.
    unfold Par.loadCSV in Hm. cbn [tl] in Hm. rewrite Hrows in Hm.
    destruct (load_rows_present rows m r Hm Hr) as (c & Hc & Hn).
    exists c. split; [exact Hc|]. split; [exact Hn|].
    pose proof (load_rows_group rows m (Par.rn r) c Hm Hc) as Hg.
    destruct (load_group_inv _ _ _ Hg) as (c0 & Hw & Hu & Hn0).
    destruct (updAll_spec c0) as (U1 & U2 & U3 & U4 & U5).
    split.
    + intros Hlt.
      assert (Hin : In r (Par.group (Par.rn r) rows)).
      { apply filter_In. split; [exact Hr|apply Z.eqb_refl]. }
      destruct (write_rows_sets _ _ _ Hw (group_nodup (Par.rn r) rows (Hnd rows Hrows))
                                r Hin) as (H0 & Hx & Hy & Ha).
      { cbn [Par.n Par.set_n]. exact Hlt. }
      subst c. rewrite U2, U3, U4, Hx, Hy, Ha. repeat split; try assumption.
      rewrite U5 by lia. rewrite Hx, Hy, Ha. reflexivity.
    + rewrite <- Hg. unfold Par.load_group.
      rewrite (write_rows_filter (Par.group (Par.rn r) rows) (Par.set_n Par.empty_cfg (Par.rn r))).
      reflexivity.
  - intros file m g c. apply single_load_positional.
Qed.

Lemma loaders_read_rows_witness :
  Par.loadCSV (A := RArith) (Some rows_01) = Par.loadCSV (A := RArith) (Some rows_10).
Proof.
  refine (proj1 (loaders_read_rows (A := RArith) "id,x,y,deg"
                   ["002_0,s1.0,s0.0,s0.0"; "002_1,s2.0,s0.0,s0.0"]%string _) _ _).
  - intros rows H.
    assert (E : exists r1 r2,
               mapM_opt (Par.parse_line (A := RArith))
                        ["002_0,s1.0,s0.0,s0.0"; "002_1,s2.0,s0.0,s0.0"]%string
               = Some [r1; r2] /\ row_key r1 = (2, 0) /\ row_key r2 = (2, 1)).
    { do 2 eexists. split; [reflexivity|]. split; reflexivity. }
    destruct E as (r1 & r2 & E & K1 & K2). rewrite E in H. injection H as <-.
    simpl. rewrite K1, K2. repeat constructor; simpl; intuition congruence.
  - apply perm_swap.
Defined.

(** C7 fails as stated.  The single-group loader reads [002_1] as tree 0
    when that row comes first, and the generation-driver loader keeps the
    last of two rows with one identifier: in both, permuting the rows changes
    what is loaded. *)
Lemma loaders_depend_on_order :
  (exists m m' c c',
      Single.loadCSV (A := RArith) (Some rows_01) = Some m
      /\ Single.loadCSV (A := RArith) (Some rows_10) = Some m'
      /\ m 2 = Some c /\ m' 2 = Some c'
      /\ Single.x (Single.tree c 0) = 1%R /\ Single.x (Single.tree c' 0) = 2%R)
  /\ (exists m m' c c',
         Par.loadCSV (A := RArith) (Some rows_dup) = Some m
         /\ Par.loadCSV (A := RArith) (Some rows_dup') = Some m'
         /\ m 1 = Some c /\ m' 1 = Some c'
         /\ Par.x c 0 = 2%R /\ Par.x c' 0 = 1%R)
  /\ Single.loadCSV (A := RArith) (Some rows_01)
     <> Single.loadCSV (A := RArith) (Some rows_10)
  /\ Par.loadCSV (A := RArith) (Some rows_dup)
     <> Par.loadCSV (A := RArith) (Some rows_dup').
Proof.
  assert (S : exists m m' c c',
      Single.loadCSV (A := RArith) (Some rows_01) = Some m
      /\ Single.loadCSV (A := RArith) (Some rows_10) = Some m'
      /\ m 2 = Some c /\ m' 2 = Some c'
      /\ Single.x (Single.tree c 0) = 1%R /\ Single.x (Single.tree c' 0) = 2%R).
  { do 4 eexists. split; [reflexivity|]. split; [reflexivity|].
    split; [reflexivity|]. split; [reflexivity|]. split; lazy; lra. }
  assert (P : exists m m' c c',
         Par.loadCSV (A := RArith) (Some rows_dup) = Some m
         /\ Par.loadCSV (A := RArith) (Some rows_dup') = Some m'
         /\ m 1 = Some c /\ m' 1 = Some c'
         /\ Par.x c 0 = 2%R /\ Par.x c' 0 = 1%R).
  { do 4 eexists. split; [reflexivity|]. split; [reflexivity|].
    split; [reflexivity|]. split; [reflexivity|]. split; lazy; lra. }
  split; [exact S|]. split; [exact P|]. split.
  - destruct S as (m & m' & c & c' & H1 & H2 & H3 & H4 & H5 & H6).
    rewrite H1, H2. intros E. injection E as E. rewrite E in H3.
    rewrite H3 in H4. injection H4 as E'. rewrite E' in H5. lra.
  - destruct P as (m & m' & c & c' & H1 & H2 & H3 & H4 & H5 & H6).
    rewrite H1, H2. intros E. injection E as E. rewrite E in H3.
    rewrite H3 in H4. injection H4 as E'. rewrite E' in H5. lra.
Qed.
